(** * A 4x4 column-major transformation matrix (src/matrix.ts, src/math.ts)

    The class [Matrix] of src/matrix.ts and the scalar helpers of src/math.ts,
    embedded statement by statement.

    - A JavaScript [number] is modelled by a real number: [+], [*], [/],
      [Math.sqrt], [Math.sin] ... are the operations of [R].  IEEE rounding,
      signed zeros, infinities and NaN are outside this model; where
      JavaScript would produce one of the last two (a division by zero, the
      square root of a negative number) the real operation has some value,
      on which no property below depends.  A number is the real that its
      decimal notation denotes; the NaN that [round] returns on finite
      numbers, when a rounded value is printed with an exponent, is kept.
    - Objects live in a heap: a [Matrix] instance is an object whose field
      [elements] holds a reference to an array object, so that [this],
      fresh instances and shared arrays are told apart.
    - A method is a computation in a state-and-exception monad over the heap. *)

From Stdlib Require Import Reals Lra RNsatz.
From stdpp Require Import gmap list strings.

(** ** Numbers *)

#[global] Instance Rlt_decision : RelDecision Rlt := Rlt_dec.
#[global] Instance Rgt_decision : RelDecision Rgt := Rgt_dec.
#[global] Instance Rle_decision : RelDecision Rle := Rle_dec.
#[global] Instance Req_decision : EqDecision R := Req_dec_T.

Module JSMath.
Local Open Scope R_scope.

(** [Math.max], [Math.min], [Math.abs], [Math.round] and [Math.atan2] on
    numbers that are real.  [Math.round] rounds halves up. *)
Definition max (a b : R) : R := Rmax a b.
Definition min (a b : R) : R := Rmin a b.
Definition abs (a : R) : R := Rabs a.
Definition round (a : R) : R := IZR (Zfloor (a + / 2)).

Definition atan2 (y x : R) : R :=
  if decide (0 < x) then atan (y / x)
  else if decide (x < 0) then
    (if decide (0 <= y) then atan (y / x) + PI else atan (y / x) - PI)
  else if decide (0 < y) then PI / 2
  else if decide (y < 0) then - (PI / 2)
  else 0.
End JSMath.

(** src/math.ts *)
Section math_ts.
Local Open Scope R_scope.

Definition degrees (radians : R) : R := radians * (180 / PI).
Definition radians (degrees : R) : R := degrees * (PI / 180).
Definition clamp (value min max : R) : R :=
  JSMath.max min (JSMath.min max value).

(** [round] goes through the decimal notation [`${num}`] of a number.
    That notation has an exponent part ("1e+21", "1.5e-7") when the number
    is at least 1e21 in magnitude or, not being zero, below 1e-6; what
    stands before the "e" is then the [mantissa], a number of one digit
    before the point, and what stands after it is the [exponent]. *)
Definition has_exponent (num : R) : bool :=
  bool_decide (10 ^ 21 <= JSMath.abs num) ||
  bool_decide (0 < JSMath.abs num < / 10 ^ 6).
Definition exponent (num : R) : Z :=
  Zfloor (ln (JSMath.abs num) / ln 10).
Definition mantissa (num : R) : R := num / powerRZ 10 (exponent num).

(** [+(`${n}e-${scale}`)]: the notation of [n] followed by "e-scale" is
    read back as a number.  When the notation of [n] has an exponent part
    of its own the text ("1e+21e-5") is not a numeral, and the result is
    NaN: [None]. *)
Definition read_shifted (n : R) (scale : nat) : option R :=
  if has_exponent n then None else Some (n / 10 ^ scale).

(** The first branch appends "e+scale" to a notation without exponent; the
    second adds [scale] to the exponent [arr[1]] of a notation that has
    one (its [sig] is "+" or nothing, and either text reads as the same
    number).  [Number] of a text is the number that the text denotes. *)
Definition round (num : R) (scale : option nat) : option R :=
  let scale := default 5%nat scale in
  if negb (has_exponent num) then
    read_shifted (JSMath.round (num * 10 ^ scale)) scale
  else
    let arr := (mantissa num, exponent num) in
    read_shifted
      (JSMath.round (arr.1 * powerRZ 10 (arr.2 + Z.of_nat scale))) scale.
End math_ts.

(** ** The heap *)

Definition loc := nat.
Bind Scope nat_scope with loc.

(** An array is a list of slots; [None] is a hole, which reads as
    [undefined]. *)
Inductive obj :=
  | ArrayObj (items : list (option R))
  | MatrixObj (elements : loc).

Abbreviation heap := (gmap loc obj).

Inductive completion (A : Type) :=
  | Normal (a : A)
  | Throw (message : string).
Arguments Normal {A} a.
Arguments Throw {A} message.

(** A computation runs on a heap and completes normally or by throwing, with
    the heap it leaves.  [None] means that it left the model: it followed a
    reference that is not of the expected kind, or it read [undefined] where
    the code computes with a number. *)
Definition JS (A : Type) : Type := heap → option (completion A * heap).

#[global] Instance JS_ret : MRet JS := λ A a h, Some (Normal a, h).
#[global] Instance JS_bind : MBind JS := λ A B k c h,
  match c h with
  | Some (Normal a, h') => k a h'
  | Some (Throw e, h') => Some (Throw e, h')
  | None => None
  end.

Definition throw {A} (message : string) : JS A := λ h, Some (Throw message, h).

Definition alloc (o : obj) : JS loc := λ h,
  let l := fresh (dom h) in Some (Normal l, <[l := o]> h).

(** [this.elements] and [this.elements = a] *)
Definition get_elements (this : loc) : JS loc := λ h,
  match h !! this with
  | Some (MatrixObj a) => Some (Normal a, h)
  | _ => None
  end.

Definition set_elements (this a : loc) : JS unit := λ h,
  match h !! this with
  | Some (MatrixObj _) => Some (Normal (), <[this := MatrixObj a]> h)
  | _ => None
  end.

(** [a[i] = v] on a list of slots: inside the array the slot is overwritten,
    beyond its end the array grows, with holes up to the slot. *)
Definition store_item (items : list (option R)) (i : nat) (v : R)
    : list (option R) :=
  if decide (i < length items) then <[i := Some v]> items
  else items ++ replicate (i - length items) None ++ [Some v].

(** [a[i]] where a number is expected, and [a[i] = v] *)
Definition array_get (a : loc) (i : nat) : JS R := λ h,
  match h !! a with
  | Some (ArrayObj items) =>
      match items !! i with
      | Some (Some v) => Some (Normal v, h)
      | _ => None
      end
  | _ => None
  end.

Definition array_set (a : loc) (i : nat) (v : R) : JS unit := λ h,
  match h !! a with
  | Some (ArrayObj items) =>
      Some (Normal (), <[a := ArrayObj (store_item items i v)]> h)
  | _ => None
  end.

Arguments array_get a i%_nat.
Arguments array_set a i%_nat v%_R.

(** An array literal [[v0, v1, ...]], the copy [[...a]] and [a.map(f)] *)
Definition array_lit (vs : list R) : JS loc := alloc (ArrayObj (Some <$> vs)).

Definition array_spread (a : loc) : JS loc := λ h,
  match h !! a with
  | Some (ArrayObj items) => alloc (ArrayObj items) h
  | _ => None
  end.

Definition array_map (f : R → R) (a : loc) : JS loc := λ h,
  match h !! a with
  | Some (ArrayObj items) =>
      alloc (ArrayObj ((λ slot : option R, f <$> slot) <$> items)) h
  | _ => None
  end.

(** ** src/matrix.ts *)

(** Modelled from the spec: the type [EulerOrder], imported from
    ./definitions, which is not among the sources.  The spec gives it as the
    enumeration of the tags XYZ, YXZ, ZXY, ZYX, YZX, XZY, ZYZ, "any other
    tag" being an invalid input; the code compares an order with [===]
    against these string literals and has a branch for every other value.
    An order is therefore a string, and an omitted one is [None]. *)
Abbreviation EulerOrder := string.

Module Matrix.
Local Open Scope R_scope.

(** [this.elements[i] = v] *)
Definition put (this : loc) (i : nat) (v : R) : JS unit :=
  a ← get_elements this; array_set a i v.
Arguments put this i%_nat v%_R.

Notation "this .[ i ] ::= v" := (put this i v)
  (at level 60, i at level 200, v at level 60, format "this .[ i ]  ::=  v").

(** [new Matrix()] *)
Definition new : JS loc :=
  a ← array_lit [1; 0; 0; 0;
                 0; 1; 0; 0;
                 0; 0; 1; 0;
                 0; 0; 0; 1];
  alloc (MatrixObj a).

Definition getElements (this : loc) : JS loc :=
  a ← get_elements this; array_spread a.

Definition setFromMatrixArray (this matrix : loc) : JS loc :=
  set_elements this matrix;;
  mret this.

Definition setPosition (this : loc) (x y z : R) : JS loc :=
  this.[12] ::= x;;
  this.[13] ::= y;;
  this.[14] ::= z;;
  mret this.

Definition setRotation (this : loc) (x y z : R) (order : option EulerOrder)
    : JS loc :=
  let order := default "XYZ"%string order in
  let x := radians x in let y := radians y in let z := radians z in
  let cx := cos x in let sx := sin x in
  let cy := cos y in let sy := sin y in
  let cz := cos z in let sz := sin z in
  if decide (order = "XYZ"%string) then
    let ae := cx * cz in let af := cx * sz in
    let be := sx * cz in let bf := sx * sz in
    this.[0] ::= cy * cz;;
    this.[4] ::= - cy * sz;;
    this.[8] ::= sy;;
    this.[1] ::= af + be * sy;;
    this.[5] ::= ae - bf * sy;;
    this.[9] ::= - sx * cy;;
    this.[2] ::= bf - ae * sy;;
    this.[6] ::= be + af * sy;;
    this.[10] ::= cx * cy;;
    mret this
  else if decide (order = "YXZ"%string) then
    let ce := cy * cz in let cf := cy * sz in
    let de := sy * cz in let df := sy * sz in
    this.[0] ::= ce + df * sx;;
    this.[4] ::= de * sx - cf;;
    this.[8] ::= cx * sy;;
    this.[1] ::= cx * sz;;
    this.[5] ::= cx * cz;;
    this.[9] ::= - sx;;
    this.[2] ::= cf * sx - de;;
    this.[6] ::= df + ce * sx;;
    this.[10] ::= cx * cy;;
    mret this
  else if decide (order = "ZXY"%string) then
    let ce := cy * cz in let cf := cy * sz in
    let de := sy * cz in let df := sy * sz in
    this.[0] ::= ce - df * sx;;
    this.[4] ::= - cx * sz;;
    this.[8] ::= de + cf * sx;;
    this.[1] ::= cf + de * sx;;
    this.[5] ::= cx * cz;;
    this.[9] ::= df - ce * sx;;
    this.[2] ::= - cx * sy;;
    this.[6] ::= sx;;
    this.[10] ::= cx * cy;;
    mret this
  else if decide (order = "ZYX"%string) then
    let ae := cx * cz in let af := cx * sz in
    let be := sx * cz in let bf := sx * sz in
    this.[0] ::= cy * cz;;
    this.[4] ::= be * sy - af;;
    this.[8] ::= ae * sy + bf;;
    this.[1] ::= cy * sz;;
    this.[5] ::= bf * sy + ae;;
    this.[9] ::= af * sy - be;;
    this.[2] ::= - sy;;
    this.[6] ::= sx * cy;;
    this.[10] ::= cx * cy;;
    mret this
  else if decide (order = "YZX"%string) then
    let ac := cx * cy in let ad := cx * sy in
    let bc := sx * cy in let bd := sx * sy in
    this.[0] ::= cy * cz;;
    this.[4] ::= bd - ac * sz;;
    this.[8] ::= bc * sz + ad;;
    this.[1] ::= sz;;
    this.[5] ::= cx * cz;;
    this.[9] ::= - sx * cz;;
    this.[2] ::= - sy * cz;;
    this.[6] ::= ad * sz + bc;;
    this.[10] ::= ac - bd * sz;;
    mret this
  else if decide (order = "ZYZ"%string) then
    if decide (sy = 0) then
      this.[0] ::= cx * cz - sx * sz;;
      this.[4] ::= - cz * sx - cx * sz;;
      this.[1] ::= cz * sx + cx * sz;;
      this.[5] ::= cx * cz - sx * sz;;
      mret this
    else if decide (round sy (Some 4%nat) = Some 3.1416) then
      this.[0] ::= - cx * cz - sx * sz;;
      this.[4] ::= - cz * sx + cx * sz;;
      this.[1] ::= - cz * sx + cx * sz;;
      this.[5] ::= cx * cz + sx * sz;;
      mret this
    else
      this.[0] ::= cx * cy * cz - sx * sz;;
      this.[4] ::= - cz * sx - cy * cx * sz;;
      this.[8] ::= cx * sy;;
      this.[1] ::= sx * cy * cz + cx * sz;;
      this.[5] ::= cx * cz - cy * sx * sz;;
      this.[9] ::= sx * sy;;
      this.[2] ::= - sy * cz;;
      this.[6] ::= sy * sz;;
      this.[10] ::= cy;;
      mret this
  else if decide (order = "XZY"%string) then
    let ac := cx * cy in let ad := cx * sy in
    let bc := sx * cy in let bd := sx * sy in
    this.[0] ::= cy * cz;;
    this.[4] ::= bd - ac * sz;;
    this.[8] ::= bc * sz + ad;;
    this.[1] ::= sz;;
    this.[5] ::= cx * cz;;
    this.[9] ::= - sx * cz;;
    this.[2] ::= - sy * cz;;
    this.[6] ::= ad * sz + bc;;
    this.[10] ::= ac - bd * sz;;
    mret this
  else throw ("Unrecognized order " +:+ order).

Definition setRotationFromQuaternion (this : loc) (x y z w : R) : JS loc :=
  let x2 := x + x in let y2 := y + y in let z2 := z + z in
  let xx := x * x2 in let xy := x * y2 in let xz := x * z2 in
  let yy := y * y2 in let yz := y * z2 in let zz := z * z2 in
  let wx := w * x2 in let wy := w * y2 in let wz := w * z2 in
  this.[0] ::= 1 - (yy + zz);;
  this.[1] ::= xy + wz;;
  this.[2] ::= xz - wy;;
  this.[4] ::= xy - wz;;
  this.[5] ::= 1 - (xx + zz);;
  this.[6] ::= yz + wx;;
  this.[8] ::= xz + wy;;
  this.[9] ::= yz - wx;;
  this.[10] ::= 1 - (xx + yy);;
  mret this.

Definition toArray (this : loc) : JS loc :=
  a ← get_elements this; array_spread a.

Definition clone (this : loc) : JS loc :=
  fresh ← new;
  copy ← toArray this;
  setFromMatrixArray fresh copy.

Definition multiplied (this m : loc) : JS loc :=
  ae ← get_elements this;
  be ← toArray m;
  te ← array_lit [];
  a11 ← array_get ae 0; a12 ← array_get ae 4;
  a13 ← array_get ae 8; a14 ← array_get ae 12;
  a21 ← array_get ae 1; a22 ← array_get ae 5;
  a23 ← array_get ae 9; a24 ← array_get ae 13;
  a31 ← array_get ae 2; a32 ← array_get ae 6;
  a33 ← array_get ae 10; a34 ← array_get ae 14;
  a41 ← array_get ae 3; a42 ← array_get ae 7;
  a43 ← array_get ae 11; a44 ← array_get ae 15;
  b11 ← array_get be 0; b12 ← array_get be 4;
  b13 ← array_get be 8; b14 ← array_get be 12;
  b21 ← array_get be 1; b22 ← array_get be 5;
  b23 ← array_get be 9; b24 ← array_get be 13;
  b31 ← array_get be 2; b32 ← array_get be 6;
  b33 ← array_get be 10; b34 ← array_get be 14;
  b41 ← array_get be 3; b42 ← array_get be 7;
  b43 ← array_get be 11; b44 ← array_get be 15;
  array_set te 0 (a11 * b11 + a12 * b21 + a13 * b31 + a14 * b41);;
  array_set te 4 (a11 * b12 + a12 * b22 + a13 * b32 + a14 * b42);;
  array_set te 8 (a11 * b13 + a12 * b23 + a13 * b33 + a14 * b43);;
  array_set te 12 (a11 * b14 + a12 * b24 + a13 * b34 + a14 * b44);;
  array_set te 1 (a21 * b11 + a22 * b21 + a23 * b31 + a24 * b41);;
  array_set te 5 (a21 * b12 + a22 * b22 + a23 * b32 + a24 * b42);;
  array_set te 9 (a21 * b13 + a22 * b23 + a23 * b33 + a24 * b43);;
  array_set te 13 (a21 * b14 + a22 * b24 + a23 * b34 + a24 * b44);;
  array_set te 2 (a31 * b11 + a32 * b21 + a33 * b31 + a34 * b41);;
  array_set te 6 (a31 * b12 + a32 * b22 + a33 * b32 + a34 * b42);;
  array_set te 10 (a31 * b13 + a32 * b23 + a33 * b33 + a34 * b43);;
  array_set te 14 (a31 * b14 + a32 * b24 + a33 * b34 + a34 * b44);;
  array_set te 3 (a41 * b11 + a42 * b21 + a43 * b31 + a44 * b41);;
  array_set te 7 (a41 * b12 + a42 * b22 + a43 * b32 + a44 * b42);;
  array_set te 11 (a41 * b13 + a42 * b23 + a43 * b33 + a44 * b43);;
  array_set te 15 (a41 * b14 + a42 * b24 + a43 * b34 + a44 * b44);;
  fresh ← new;
  setFromMatrixArray fresh te.

Definition multiply (this matrix : loc) : JS unit :=
  product ← multiplied this matrix;
  copy ← getElements product;
  setFromMatrixArray this copy;;
  mret ().

Definition transform (this matrix : loc) : JS unit :=
  multiply this matrix.

(** Returns the array [[x, y, z, w]]. *)
Definition toQuaternion (this : loc) : JS loc :=
  te ← get_elements this;
  m11 ← array_get te 0; m12 ← array_get te 4; m13 ← array_get te 8;
  m21 ← array_get te 1; m22 ← array_get te 5; m23 ← array_get te 9;
  m31 ← array_get te 2; m32 ← array_get te 6; m33 ← array_get te 10;
  let trace := m11 + m22 + m33 in
  if decide (trace > 0) then
    let s := 0.5 / sqrt (trace + 1.0) in
    let w := 0.25 / s in
    let x := (m32 - m23) * s in
    let y := (m13 - m31) * s in
    let z := (m21 - m12) * s in
    array_lit [x; y; z; w]
  else if decide (m11 > m22 ∧ m11 > m33) then
    let s := 2.0 * sqrt (1.0 + m11 - m22 - m33) in
    let w := (m32 - m23) / s in
    let x := 0.25 * s in
    let y := (m12 + m21) / s in
    let z := (m13 + m31) / s in
    array_lit [x; y; z; w]
  else if decide (m22 > m33) then
    let s := 2.0 * sqrt (1.0 + m22 - m11 - m33) in
    let w := (m13 - m31) / s in
    let x := (m12 + m21) / s in
    let y := 0.25 * s in
    let z := (m23 + m32) / s in
    array_lit [x; y; z; w]
  else
    let s := 2.0 * sqrt (1.0 + m33 - m11 - m22) in
    let w := (m21 - m12) / s in
    let x := (m13 + m31) / s in
    let y := (m23 + m32) / s in
    let z := 0.25 * s in
    array_lit [x; y; z; w].

(** The result is a new instance; [this] is only read. *)
Definition applyQuaternion (this : loc) (x y z w : R) : JS loc :=
  a ← toQuaternion this;
  qax ← array_get a 0; qay ← array_get a 1;
  qaz ← array_get a 2; qaw ← array_get a 3;
  let qbx := x in let qby := y in let qbz := z in let qbw := w in
  let nx := qax * qbw + qaw * qbx + qay * qbz - qaz * qby in
  let ny := qay * qbw + qaw * qby + qaz * qbx - qax * qbz in
  let nz := qaz * qbw + qaw * qbz + qax * qby - qay * qbx in
  let nw := qaw * qbw - qax * qbx - qay * qby - qaz * qbz in
  fresh ← new;
  setRotationFromQuaternion fresh nx ny nz nw.

Definition rotated (this : loc) (x y z : R) (order : option EulerOrder)
    : JS loc :=
  let order := Some (default "XYZ"%string order) in
  fresh ← new;
  rot ← setRotation fresh x y z order;
  q ← toQuaternion rot;
  qx ← array_get q 0; qy ← array_get q 1;
  qz ← array_get q 2; qw ← array_get q 3;
  copy ← clone this;
  applyQuaternion copy qx qy qz qw.

(** The instance that [applyQuaternion] returns is dropped. *)
Definition rotate (this : loc) (x y z : R) (order : option EulerOrder)
    : JS loc :=
  fresh ← new;
  rot ← setRotation fresh x y z order;
  q ← toQuaternion rot;
  qx ← array_get q 0; qy ← array_get q 1;
  qz ← array_get q 2; qw ← array_get q 3;
  applyQuaternion this qx qy qz qw;;
  mret this.

Definition toEuler (this : loc) (order : option EulerOrder) : JS loc :=
  let order := default "XYZ"%string order in
  te ← get_elements this;
  m11 ← array_get te 0; m12 ← array_get te 4; m13 ← array_get te 8;
  m21 ← array_get te 1; m22 ← array_get te 5; m23 ← array_get te 9;
  m31 ← array_get te 2; m32 ← array_get te 6; m33 ← array_get te 10;
  '(x, y, z) ←
    (if decide (order = "XYZ"%string) then
       let y := asin (clamp m13 (- 1) 1) in
       if decide (JSMath.abs m13 < 0.9999999) then
         let x := JSMath.atan2 (- m23) m33 in
         let z := JSMath.atan2 (- m12) m11 in
         mret (x, y, z)
       else
         let x := JSMath.atan2 m32 m22 in
         let z := 0 in
         mret (x, y, z)
     else if decide (order = "YXZ"%string) then
       let x := asin (- clamp m23 (- 1) 1) in
       if decide (JSMath.abs m23 < 0.9999999) then
         let y := JSMath.atan2 m13 m33 in
         let z := JSMath.atan2 m21 m22 in
         mret (x, y, z)
       else
         let y := JSMath.atan2 (- m31) m11 in
         let z := 0 in
         mret (x, y, z)
     else if decide (order = "ZXY"%string) then
       let x := asin (clamp m32 (- 1) 1) in
       if decide (JSMath.abs m32 < 0.9999999) then
         let y := JSMath.atan2 (- m31) m33 in
         let z := JSMath.atan2 (- m12) m22 in
         mret (x, y, z)
       else
         let y := 0 in
         let z := JSMath.atan2 m21 m11 in
         mret (x, y, z)
     else if decide (order = "ZYX"%string) then
       let y := asin (- clamp m31 (- 1) 1) in
       if decide (JSMath.abs m31 < 0.9999999) then
         let x := JSMath.atan2 m32 m33 in
         let z := JSMath.atan2 m21 m11 in
         mret (x, y, z)
       else
         let x := 0 in
         let z := JSMath.atan2 (- m12) m22 in
         mret (x, y, z)
     else if decide (order = "YZX"%string) then
       let z := asin (clamp m21 (- 1) 1) in
       if decide (JSMath.abs m21 < 0.9999999) then
         let x := JSMath.atan2 (- m23) m22 in
         let y := JSMath.atan2 (- m31) m11 in
         mret (x, y, z)
       else
         let x := 0 in
         let y := JSMath.atan2 m13 m33 in
         mret (x, y, z)
     else if decide (order = "XZY"%string) then
       let z := asin (- clamp m12 (- 1) 1) in
       if decide (JSMath.abs m12 < 0.9999999) then
         let x := JSMath.atan2 m32 m22 in
         let y := JSMath.atan2 m13 m11 in
         mret (x, y, z)
       else
         let x := JSMath.atan2 (- m23) m33 in
         let y := 0 in
         mret (x, y, z)
     else if decide (order = "ZYZ"%string) then
       if decide (m33 < 1) then
         if decide (m33 > - 1) then
           let x := JSMath.atan2 m23 m13 in
           let z := JSMath.atan2 m32 (- m31) in
           let y := acos m33 in
           mret (x, y, z)
         else
           let y := PI in
           let x := - JSMath.atan2 m21 m22 in
           let z := 0 in
           mret (x, y, z)
       else
         let y := 0 in
         let x := JSMath.atan2 m21 m22 in
         let z := 0 in
         mret (x, y, z)
     else throw "Invalid euler order.");
  angles ← array_lit [x; y; z];
  array_map degrees angles.

Definition toMatrix3 (this : loc) : JS loc :=
  m ← get_elements this;
  m0 ← array_get m 0; m1 ← array_get m 1; m2 ← array_get m 2;
  m4 ← array_get m 4; m5 ← array_get m 5; m6 ← array_get m 6;
  m2' ← array_get m 2; m6' ← array_get m 6; m10 ← array_get m 10;
  array_lit [m0; m1; m2;
             m4; m5; m6;
             m2'; m6'; m10].
End Matrix.

(** ** What the properties are stated with *)

Section vocabulary.
Local Open Scope R_scope.

(** [m] is an instance whose [elements] is the array [a], and [a] holds
    the sixteen numbers [es] (no holes). *)
Definition is_matrix (h : heap) (m a : loc) (es : list R) : Prop :=
  h !! m = Some (MatrixObj a) ∧
  h !! a = Some (ArrayObj (Some <$> es)) ∧
  length es = 16%nat.

(** The orders that [setRotation] and [toEuler] test for. *)
Definition supported_orders : list EulerOrder :=
  ["XYZ"; "YXZ"; "ZXY"; "ZYX"; "YZX"; "XZY"; "ZYZ"]%string.

(** [needle] occurs in [text]. *)
Fixpoint occurs (needle text : string) : bool :=
  String.prefix needle text ||
  match text with
  | EmptyString => false
  | String _ rest => occurs needle rest
  end.

(** An error message identifies an order when it quotes it. *)
Definition identifies (message : string) (order : EulerOrder) : Prop :=
  occurs order message = true.

(** Angles, in degrees, that an extraction can give back: [principal] is
    the range of [Math.atan2], [off_gimbal] is the open range of
    [Math.asin] together with the test of the gimbal branch of [toEuler],
    and [off_poles] is the open range of [Math.acos], as far from 0 and
    180 as [off_gimbal] is from -90 and 90: there the cosine that
    [toEuler] tests against 1 and -1 is told apart from them. *)
Definition principal (deg : R) : Prop := -180 < deg <= 180.


(** [setRotation] on a fresh identity, then [toEuler], both with [order];
    and what it is for a computation to return an array of three angles
    that are [x], [y], [z] within 1e-4. *)
Definition round_trip (order : EulerOrder) (x y z : R) : JS loc :=
  m ← Matrix.new;
  Matrix.setRotation m x y z (Some order);;
  Matrix.toEuler m (Some order).

Definition returns_angles (c : JS loc) (h : heap) (x y z : R) : Prop :=
  ∃ r h' x' y' z',
    c h = Some (Normal r, h') ∧
    h' !! r = Some (ArrayObj (Some <$> [x'; y'; z'])) ∧
    Rabs (x' - x) < 0.0001 ∧
    Rabs (y' - y) < 0.0001 ∧
    Rabs (z' - z) < 0.0001.

(** A heap with one instance, at [1], translated by (1, 2, 3) and with
    different entries at 2 and 10. *)
Definition sample_elements : list R :=
  [1; 0; 0.5; 0;
   0; 1; 0; 0;
   0; 0; 0.8; 0;
   1; 2; 3; 1].
Definition sample_heap : heap :=
  <[1%nat := MatrixObj 0%nat]>
    (<[0%nat := ArrayObj (Some <$> sample_elements)]> ∅).
End vocabulary.

(** ** Matrices as arrays of sixteen numbers *)

Section algebra.
Local Open Scope R_scope.

(** The entry at ([row], [col]) of a column-major array, the product that
    the sixteen sums of [multiplied] spell out, and the arrays whose
    bottom row is (0, 0, 0, 1). *)
Definition entry (es : list R) (row col : nat) : R :=
  default 0 (es !! (4 * col + row)%nat).

Definition matrix_product (a b : list R) : list R :=
  (λ i : nat,
     let row := (i mod 4)%nat in
     let col := (i / 4)%nat in
     entry a row 0 * entry b 0 col + entry a row 1 * entry b 1 col +
     entry a row 2 * entry b 2 col + entry a row 3 * entry b 3 col)
  <$> seq 0 16.

Definition affine (es : list R) : Prop :=
  entry es 3 0 = 0 ∧ entry es 3 1 = 0 ∧ entry es 3 2 = 0 ∧ entry es 3 3 = 1.

Definition identity_elements : list R :=
  [1; 0; 0; 0; 0; 1; 0; 0; 0; 0; 1; 0; 0; 0; 0; 1].

(** [es] with (x, y, z) at the indices 12, 13 and 14. *)
Definition positioned (es : list R) (x y z : R) : list R :=
  take 12 es ++ [x; y; z] ++ drop 15 es.

(** The upper-left 3x3 block sits at [block_indices]; it is a rotation
    when its columns are orthonormal and its determinant is 1. *)
Definition block_indices : list nat := [0; 1; 2; 4; 5; 6; 8; 9; 10]%nat.

Definition same_block (es es' : list R) : Prop :=
  Forall (λ i, es !! i = es' !! i) block_indices.

Definition dot (es : list R) (c c' : nat) : R :=
  entry es 0 c * entry es 0 c' + entry es 1 c * entry es 1 c' +
  entry es 2 c * entry es 2 c'.

Definition det3 (es : list R) : R :=
  entry es 0 0 * (entry es 1 1 * entry es 2 2 - entry es 1 2 * entry es 2 1)
  - entry es 0 1 * (entry es 1 0 * entry es 2 2 - entry es 1 2 * entry es 2 0)
  + entry es 0 2 * (entry es 1 0 * entry es 2 1 - entry es 1 1 * entry es 2 0).

Definition rotation_block (es : list R) : Prop :=
  dot es 0 0 = 1 ∧ dot es 1 1 = 1 ∧ dot es 2 2 = 1 ∧
  dot es 0 1 = 0 ∧ dot es 0 2 = 0 ∧ dot es 1 2 = 0 ∧
  det3 es = 1.

(** The rotation matrix of the quaternion (x, y, z, w), as a 4x4
    column-major array. *)
Definition unit_quaternion (x y z w : R) : Prop :=
  x * x + y * y + z * z + w * w = 1.

Definition quaternion_elements (x y z w : R) : list R :=
  [1 - 2 * (y * y + z * z); 2 * (x * y + w * z); 2 * (x * z - w * y); 0;
   2 * (x * y - w * z); 1 - 2 * (x * x + z * z); 2 * (y * z + w * x); 0;
   2 * (x * z + w * y); 2 * (y * z - w * x); 1 - 2 * (x * x + y * y); 0;
   0; 0; 0; 1].

(** A rotation about Z by [deg] degrees, written over [es]. *)
Definition z_rotation_over (es : list R) (deg : R) : list R :=
  <[5%nat := cos (radians deg)]>
    (<[4%nat := - sin (radians deg)]>
       (<[1%nat := sin (radians deg)]>
          (<[0%nat := cos (radians deg)]> es))).

(** Every object of [h] other than [a] is the same in [h']. *)
Definition keeps_heap_except (a : loc) (h h' : heap) : Prop :=
  ∀ l, l ≠ a → h' !! l = h !! l.

(** The range of an angle that [toEuler] returns, in degrees; and the
    angles that are at least the tolerance of [returns_angles] away from
    the cut of [Math.atan2], at -180 and 180. *)
Definition in_half_turn (deg : R) : Prop := -180 <= deg <= 180.
Definition clear_of_cut (deg : R) : Prop := -179.9999 <= deg <= 179.9999.

(** [sample_heap] with a second instance, at [3], on an array of its own;
    and a heap with one instance, at [1], that is a quarter turn about Z
    translated by (5, 6, 7). *)
Definition two_instances : heap :=
  <[3%nat := MatrixObj 2%nat]>
    (<[2%nat := ArrayObj (Some <$> sample_elements)]> sample_heap).

Definition quarter_turn_elements : list R :=
  [0; 1; 0; 0;
   -1; 0; 0; 0;
   0; 0; 1; 0;
   5; 6; 7; 1].
Definition quarter_turn_heap : heap :=
  <[1%nat := MatrixObj 0%nat]>
    (<[0%nat := ArrayObj (Some <$> quarter_turn_elements)]> ∅).
End algebra.

(** ** Running a computation step by step *)

Section run.
Context {A B : Type}.
Implicit Types (h : heap) (k : A → JS B).

Lemma run_bind (c : JS A) k h a h' :
  c h = Some (Normal a, h') → (c ≫= k) h = k a h'.
Proof. intros E. unfold mbind, JS_bind. by rewrite E. Qed.

Lemma run_bind_ret k (a : A) h : (mret a ≫= k) h = k a h.
Proof. done. Qed.

Lemma run_bind_throw k e h : (throw e ≫= k) h = Some (Throw e, h).
Proof. done. Qed.

Lemma run_bind_assoc {C} (c : JS C) (f : C → JS A) k h :
  ((c ≫= f) ≫= k) h = (c ≫= λ x, f x ≫= k) h.
Proof. unfold mbind, JS_bind. by destruct (c h) as [[[]]|]. Qed.
End run.

Section primitives.
Context {B : Type}.
Implicit Types (h : heap).

Lemma run_get_elements (k : loc → JS B) h this a :
  h !! this = Some (MatrixObj a) → (get_elements this ≫= k) h = k a h.
Proof. intros E. unfold mbind, JS_bind, get_elements. by rewrite E. Qed.

Lemma run_set_elements (k : () → JS B) h this a a' :
  h !! this = Some (MatrixObj a) →
  (set_elements this a' ≫= k) h = k () (<[this := MatrixObj a']> h).
Proof. intros E. unfold mbind, JS_bind, set_elements. by rewrite E. Qed.

Lemma run_array_get (k : R → JS B) h a items i v :
  h !! a = Some (ArrayObj items) → items !! i = Some (Some v) →
  (array_get a i ≫= k) h = k v h.
Proof.
  intros E1 E2. unfold mbind, JS_bind, array_get. by rewrite E1, E2.
Qed.

Lemma run_array_set (k : () → JS B) h a items i v :
  h !! a = Some (ArrayObj items) →
  (array_set a i v ≫= k) h
  = k () (<[a := ArrayObj (store_item items i v)]> h).
Proof. intros E. unfold mbind, JS_bind, array_set. by rewrite E. Qed.

Lemma run_put (k : () → JS B) h this a items i v :
  h !! this = Some (MatrixObj a) → h !! a = Some (ArrayObj items) →
  (Matrix.put this i v ≫= k) h
  = k () (<[a := ArrayObj (store_item items i v)]> h).
Proof.
  intros E1 E2. unfold Matrix.put. rewrite run_bind_assoc.
  rewrite (run_get_elements _ _ _ _ E1). by apply run_array_set.
Qed.

Lemma run_alloc (k : loc → JS B) h o :
  ∃ l, h !! l = None ∧ (alloc o ≫= k) h = k l (<[l := o]> h).
Proof.
  exists (fresh (dom h)). split; [|done]. apply not_elem_of_dom, is_fresh.
Qed.

Lemma run_array_spread (k : loc → JS B) h a items :
  h !! a = Some (ArrayObj items) →
  (array_spread a ≫= k) h = (alloc (ArrayObj items) ≫= k) h.
Proof. intros E. unfold mbind, JS_bind, array_spread. by rewrite E. Qed.

Lemma run_array_map (k : loc → JS B) h f a items :
  h !! a = Some (ArrayObj items) →
  (array_map f a ≫= k) h
  = (alloc (ArrayObj ((λ slot : option R, f <$> slot) <$> items)) ≫= k) h.
Proof. intros E. unfold mbind, JS_bind, array_map. by rewrite E. Qed.
End primitives.

Lemma run_last {A} (c : JS A) h : c h = (c ≫= mret) h.
Proof. unfold mbind, JS_bind. by destruct (c h) as [[[]]|]. Qed.

Lemma run_ret {A} (a : A) (h : heap) : mret (M := JS) a h = Some (Normal a, h).
Proof. done. Qed.

(** A lookup in a heap built by insertions, the inserted locations being
    known apart from the hypotheses. *)
Ltac heap_reduce :=
  repeat first
    [ rewrite lookup_insert_eq | rewrite lookup_insert_ne by congruence ].

Ltac heap_lookup := heap_reduce; first [ reflexivity | eassumption ].

(** One step of the computation at the head of the goal.  A test is split
    in two goals, the one that contradicts the hypotheses being closed. *)
Ltac js_step :=
  lazymatch goal with
  | |- context [ @mbind JS _ _ _ ?k (@mbind JS _ _ _ ?f ?c) ?h ] =>
      rewrite (run_bind_assoc c f k h)
  | |- context [ @mbind JS _ _ _ ?k (@mret JS _ _ ?a) ?h ] =>
      rewrite (run_bind_ret k a h)
  | |- context [ @mbind JS _ _ _ ?k (throw ?e) ?h ] =>
      rewrite (run_bind_throw k e h)
  | |- context [ @mbind JS _ _ _ ?k (if ?d then _ else _) ?h ] =>
      destruct d; try (exfalso; congruence)
  | |- context [ @mbind JS _ _ _ ?k (get_elements ?t) ?h ] =>
      erewrite (run_get_elements k h t) by heap_lookup
  | |- context [ @mbind JS _ _ _ ?k (set_elements ?t ?a) ?h ] =>
      erewrite (run_set_elements k h t) by heap_lookup
  | |- context [ @mbind JS _ _ _ ?k (array_get ?a ?i) ?h ] =>
      erewrite (run_array_get k h a) by first [ heap_lookup | reflexivity ]
  | |- context [ @mbind JS _ _ _ ?k (array_set ?a ?i ?v) ?h ] =>
      erewrite (run_array_set k h a) by heap_lookup;
      rewrite ?insert_insert_eq
  | |- context [ @mbind JS _ _ _ ?k (Matrix.put ?t ?i ?v) ?h ] =>
      erewrite (run_put k h t) by heap_lookup;
      rewrite ?insert_insert_eq
  | |- context [ @mbind JS _ _ _ ?k (array_spread ?a) ?h ] =>
      erewrite (run_array_spread k h a) by heap_lookup
  | |- context [ @mbind JS _ _ _ ?k (array_map ?f ?a) ?h ] =>
      erewrite (run_array_map k h f a) by heap_lookup
  | |- context [ @mbind JS _ _ _ ?k (array_lit ?vs) ?h ] =>
      change (array_lit vs) with (alloc (ArrayObj (Some <$> vs)))
  | |- context [ @mbind JS _ _ _ ?k (alloc ?o) ?h ] =>
      let l := fresh "l" in
      let Hl := fresh "Hl" in
      let Hrun := fresh "Hrun" in
      destruct (run_alloc k h o) as (l & Hl & Hrun);
      rewrite Hrun; clear Hrun;
      repeat (let Hne := fresh "Hne" in
              apply lookup_insert_None in Hl as [Hl Hne])
  end;
  cbv beta zeta;
  repeat match goal with
         | |- context [ store_item ?items ?i ?v ] =>
             let stored := eval cbv [store_item] in (store_item items i v) in
             let stored := eval simpl in stored in
             change (store_item items i v) with stored
         end;
  simpl fmap.

Ltac js_run := repeat js_step.

(** The sixteen numbers of a matrix, by name. *)
Ltac sixteen es Hlen :=
  do 16 (destruct es as [|? es]; [discriminate Hlen|]);
  destruct es; [|discriminate Hlen].

Ltac matrix_elements H :=
  let Hm := fresh "Hm" in
  let Ha := fresh "Ha" in
  let Hlen := fresh "Hlen" in
  destruct H as (Hm & Ha & Hlen);
  match type of Hlen with length ?es = _ => sixteen es Hlen end;
  simpl fmap in Ha.

(** A heap is kept by the allocations made on top of it. *)
Ltac heap_kept :=
  repeat (apply insert_subseteq_r; [assumption|]); reflexivity.

Lemma is_matrix_kept h h' m a es :
  is_matrix h m a es → h ⊆ h' → is_matrix h' m a es.
Proof.
  intros (Hm & Ha & Hlen) Hsub. repeat split; [..|done].
  - by eapply lookup_weaken.
  - by eapply lookup_weaken.
Qed.

Lemma is_matrix_insert_fresh h m a es l o :
  is_matrix h m a es → h !! l = None → is_matrix (<[l := o]> h) m a es.
Proof.
  intros H Hl. eapply is_matrix_kept; [done|]. by apply insert_subseteq.
Qed.

Lemma sample_is_matrix : is_matrix sample_heap 1 0 sample_elements.
Proof. repeat split. Qed.

Lemma BAD_unsupported : "BAD"%string ∉ supported_orders.
Proof. apply (bool_decide_unpack _). by vm_compute. Qed.

Lemma unsupported_order order :
  order ∉ supported_orders →
  order ≠ "XYZ"%string ∧ order ≠ "YXZ"%string ∧ order ≠ "ZXY"%string ∧
  order ≠ "ZYX"%string ∧ order ≠ "YZX"%string ∧ order ≠ "XZY"%string ∧
  order ≠ "ZYZ"%string.
Proof.
  intros Hbad. repeat split; intros ->; apply Hbad; unfold supported_orders;
    repeat first [ by apply list_elem_of_here | apply list_elem_of_further ].
Qed.

(** ** Angles *)

Section angles.
Local Open Scope R_scope.

Lemma radians_lt a b : a < b → radians a < radians b.
Proof.
  intros H. unfold radians. apply Rmult_lt_compat_r; [|done].
  pose proof PI_RGT_0. lra.
Qed.

Lemma radians_le a b : a <= b → radians a <= radians b.
Proof.
  intros H. unfold radians. apply Rmult_le_compat_r; [|done].
  pose proof PI_RGT_0. lra.
Qed.

Lemma radians_0 : radians 0 = 0.
Proof. unfold radians. ring. Qed.

Lemma radians_90 : radians 90 = PI / 2.
Proof. unfold radians. field. Qed.

Lemma radians_180 : radians 180 = PI.
Proof. unfold radians. field. Qed.

Lemma radians_opp a : radians (- a) = - radians a.
Proof. unfold radians. ring. Qed.

Lemma degrees_0 : degrees 0 = 0.
Proof. unfold degrees. ring. Qed.

Lemma degrees_radians a : degrees (radians a) = a.
Proof. unfold degrees, radians. field. apply PI_neq0. Qed.

Lemma degrees_le a b : a <= b → degrees a <= degrees b.
Proof.
  intros H. unfold degrees. apply Rmult_le_compat_r; [|done].
  pose proof PI_RGT_0. apply Rlt_le, Rdiv_lt_0_compat; lra.
Qed.

Lemma tan_plus_PI a : cos a ≠ 0 → tan (a + PI) = tan a.
Proof. intros H. unfold tan. rewrite neg_sin, neg_cos. by field. Qed.

Lemma tan_minus_PI a : cos a ≠ 0 → tan (a - PI) = tan a.
Proof.
  intros H. unfold tan. rewrite sin_minus, cos_minus, sin_PI, cos_PI.
  by field.
Qed.

Lemma tan_polar r a : r ≠ 0 → cos a ≠ 0 → r * sin a / (r * cos a) = tan a.
Proof. intros. unfold tan. by field. Qed.

(** Where an angle of ]-PI, PI] lies, from the signs of its cosine and
    sine. *)
Lemma cos_pos_principal a :
  - PI < a <= PI → 0 < cos a → - (PI / 2) < a < PI / 2.
Proof.
  intros [Hlo Hhi] Hc. split.
  - destruct (Rlt_dec (- (PI / 2)) a) as [|Hn]; [done|]. exfalso.
    assert (cos (- a) <= 0) by (apply cos_le_0; lra).
    rewrite cos_neg in *. lra.
  - destruct (Rlt_dec a (PI / 2)) as [|Hn]; [done|]. exfalso.
    assert (cos a <= 0) by (apply cos_le_0; lra). lra.
Qed.

Lemma cos_neg_upper a :
  - PI < a <= PI → cos a < 0 → 0 <= sin a → PI / 2 < a.
Proof.
  intros [Hlo Hhi] Hc Hs.
  destruct (Rlt_dec (PI / 2) a) as [|Hn]; [done|]. exfalso.
  destruct (Rlt_dec a 0).
  - assert (sin a < 0) by (apply sin_lt_0_var; lra). lra.
  - assert (0 <= cos a) by (apply cos_ge_0; lra). lra.
Qed.

Lemma cos_neg_lower a :
  - PI < a <= PI → cos a < 0 → sin a < 0 → a < - (PI / 2).
Proof.
  intros [Hlo Hhi] Hc Hs.
  destruct (Rlt_dec a (- (PI / 2))) as [|Hn]; [done|]. exfalso.
  destruct (Rlt_dec a 0).
  - assert (0 <= cos a) by (apply cos_ge_0; lra). lra.
  - assert (0 <= sin a) by (apply sin_ge_0; lra). lra.
Qed.

Lemma cos_zero_principal a :
  - PI < a <= PI → cos a = 0 → a = PI / 2 ∨ a = - (PI / 2).
Proof.
  intros [Hlo Hhi] Hc. pose proof PI_RGT_0.
  destruct (Rle_dec 0 a).
  - destruct (cos_eq_0_2PI_0 a) as [|]; [lra..|by left|lra].
  - destruct (cos_eq_0_2PI_0 (- a)) as [|];
      [lra|lra|by rewrite cos_neg|right; lra|lra].
Qed.

(** [Math.atan2] gives back the angle of a point given in polar
    coordinates. *)
Lemma atan2_polar r a :
  0 < r → - PI < a <= PI → JSMath.atan2 (r * sin a) (r * cos a) = a.
Proof.
  intros Hr Ha. pose proof PI_RGT_0 as HPI. unfold JSMath.atan2.
  destruct (Rtotal_order (cos a) 0) as [Hc|[Hc|Hc]].
  - rewrite decide_False by nra. rewrite decide_True by nra.
    rewrite tan_polar by lra.
    destruct (Rle_dec 0 (sin a)) as [Hs|Hs].
    + rewrite decide_True by nra.
      pose proof (cos_neg_upper a Ha Hc Hs).
      rewrite <- tan_minus_PI by lra. rewrite atan_tan; lra.
    + rewrite decide_False by nra.
      assert (a < - (PI / 2)) by (apply cos_neg_lower; lra).
      rewrite <- tan_plus_PI by lra. rewrite atan_tan; lra.
  - rewrite Hc, Rmult_0_r.
    rewrite decide_False by lra. rewrite decide_False by lra.
    destruct (cos_zero_principal a Ha Hc) as [->| ->].
    + rewrite sin_PI2. by rewrite decide_True by lra.
    + rewrite sin_neg, sin_PI2. rewrite decide_False by lra.
      by rewrite decide_True by lra.
  - rewrite decide_True by nra. rewrite tan_polar by lra.
    apply atan_tan. by apply cos_pos_principal.
Qed.

Lemma atan2_0_1 : JSMath.atan2 0 1 = 0.
Proof.
  unfold JSMath.atan2. rewrite decide_True by lra.
  replace (0 / 1) with 0 by field. apply atan_0.
Qed.

Lemma clamp_id v : -1 <= v <= 1 → clamp v (- 1) 1 = v.
Proof.
  intros [??]. unfold clamp, JSMath.max, JSMath.min.
  rewrite Rmin_right by done. by rewrite Rmax_right.
Qed.

Lemma clamp_0 : clamp 0 (- 1) 1 = 0.
Proof. apply clamp_id. lra. Qed.

(** [round] of a sine is at most 1, so it is never 3.1416. *)
Lemma JSMath_round_le a (n : Z) : a <= IZR n → JSMath.round a <= IZR n.
Proof.
  intros H. unfold JSMath.round. apply IZR_le.
  assert (Zfloor (a + / 2) < n + 1)%Z; [|lia].
  apply lt_IZR. rewrite plus_IZR.
  pose proof (Zfloor_bound (a + / 2)). lra.
Qed.

Lemma round_shift num scale :
  round num scale
  = read_shifted (JSMath.round (num * 10 ^ default 5%nat scale))
      (default 5%nat scale).
Proof.
  unfold round. cbv zeta. destruct (negb (has_exponent num)); [done|].
  f_equal. f_equal. simpl fst. simpl snd. unfold mantissa.
  rewrite powerRZ_add by lra. rewrite <- pow_powerRZ.
  field. apply powerRZ_NOR. lra.
Qed.

Lemma round_sin_le_1 a : JSMath.round (sin a * 10 ^ 4) / 10 ^ 4 <= 1.
Proof.
  assert (JSMath.round (sin a * 10 ^ 4) <= IZR 10000).
  { apply JSMath_round_le. pose proof (SIN_bound a). lra. }
  apply (Rmult_le_reg_r (10 ^ 4)); [lra|].
  replace (JSMath.round (sin a * 10 ^ 4) / 10 ^ 4 * 10 ^ 4)
    with (JSMath.round (sin a * 10 ^ 4)) by (field; lra).
  lra.
Qed.

Lemma round_sin_not_PI a : round (sin a) (Some 4%nat) ≠ Some 3.1416.
Proof.
  rewrite round_shift. simpl default. unfold read_shifted.
  destruct (has_exponent _); [done|]. intros H%(inj Some).
  pose proof (round_sin_le_1 a) as Hle. rewrite H in Hle. lra.
Qed.

Lemma sin_near_180 : sin (radians 179.99999) ≠ 0.
Proof.
  assert (0 < sin (radians 179.99999)); [|lra].
  apply sin_gt_0.
  - rewrite <- radians_0. apply radians_lt. lra.
  - rewrite <- radians_180. apply radians_lt. lra.
Qed.

(** The ranges of the round trip, in radians. *)
Lemma principal_radians deg : principal deg → - PI < radians deg <= PI.
Proof.
  intros [Hlo Hhi]. rewrite <- radians_180, <- radians_opp.
  split; [by apply radians_lt|by apply radians_le].
Qed.






(** What the formulas of [toEuler] give back. *)
Lemma degrees_atan2 r deg y x :
  0 < r → principal deg →
  y = r * sin (radians deg) → x = r * cos (radians deg) →
  degrees (JSMath.atan2 y x) = deg.
Proof.
  intros Hr Hdeg -> ->.
  rewrite atan2_polar; [|done|by apply principal_radians].
  apply degrees_radians.
Qed.






Lemma within_tolerance v : Rabs (v - v) < 0.0001.
Proof. replace (v - v) with 0 by ring. rewrite Rabs_R0. lra. Qed.

End angles.

(** ** The methods, run on a well-formed instance *)

Section methods.
Context {B : Type}.
Implicit Types (h : heap) (m a : loc) (es : list R).
Local Open Scope R_scope.

Lemma run_new (k : loc → JS B) h :
  ∃ a m,
    h !! a = None ∧ h !! m = None ∧ a ≠ m ∧
    (Matrix.new ≫= k) h
    = k m (<[m := MatrixObj a]>
             (<[a := ArrayObj (Some <$> [1; 0; 0; 0; 0; 1; 0; 0;
                                         0; 0; 1; 0; 0; 0; 0; 1])]> h)).
Proof. unfold Matrix.new. js_run. by exists l, l0. Qed.

Lemma run_toQuaternion (k : loc → JS B) h m a es :
  is_matrix h m a es →
  ∃ r qx qy qz qw,
    h !! r = None ∧
    (Matrix.toQuaternion m ≫= k) h
    = k r (<[r := ArrayObj (Some <$> [qx; qy; qz; qw])]> h).
Proof.
  intros H. matrix_elements H. unfold Matrix.toQuaternion. js_run.
  all: by eexists l, _, _, _, _.
Qed.

Lemma run_setRotationFromQuaternion (k : loc → JS B) h m a es x y z w :
  is_matrix h m a es →
  ∃ es',
    length es' = 16%nat ∧
    (∀ i, i ∈ [3; 7; 11; 12; 13; 14; 15]%nat → es' !! i = es !! i) ∧
    (Matrix.setRotationFromQuaternion m x y z w ≫= k) h
    = k m (<[a := ArrayObj (Some <$> es')]> h).
Proof.
  intros H. matrix_elements H. unfold Matrix.setRotationFromQuaternion.
  js_run.
  eexists [_;_;_;_;_;_;_;_;_;_;_;_;_;_;_;_]. split; [reflexivity|].
  split; [|reflexivity].
  intros i Hi.
  repeat (apply elem_of_cons in Hi as [->|Hi]);
    [..|by apply elem_of_nil in Hi]; reflexivity.
Qed.

Lemma run_setRotation (k : loc → JS B) h m a es x y z order :
  is_matrix h m a es → default "XYZ"%string order ∈ supported_orders →
  ∃ es',
    length es' = 16%nat ∧
    (Matrix.setRotation m x y z order ≫= k) h
    = k m (<[a := ArrayObj (Some <$> es')]> h).
Proof.
  intros H Horder. matrix_elements H. unfold Matrix.setRotation.
  cbv zeta. unfold supported_orders in Horder.
  repeat (apply elem_of_cons in Horder as [->|Horder]);
    [..|by apply elem_of_nil in Horder].
  all: js_run.
  all: eexists [_;_;_;_;_;_;_;_;_;_;_;_;_;_;_;_]; split; reflexivity.
Qed.

Lemma run_applyQuaternion (k : loc → JS B) h m a es x y z w :
  is_matrix h m a es →
  ∃ r ar es' h',
    (Matrix.applyQuaternion m x y z w ≫= k) h = k r h' ∧
    h !! r = None ∧ h !! ar = None ∧ h ⊆ h' ∧
    is_matrix h' r ar es' ∧
    es' !! 3%nat = Some 0 ∧ es' !! 7%nat = Some 0 ∧
    es' !! 11%nat = Some 0 ∧ es' !! 12%nat = Some 0 ∧
    es' !! 13%nat = Some 0 ∧ es' !! 14%nat = Some 0 ∧
    es' !! 15%nat = Some 1.
Proof.
  intros H. unfold Matrix.applyQuaternion. rewrite run_bind_assoc.
  match goal with |- context [ (Matrix.toQuaternion m ≫= ?k') h ] =>
    destruct (run_toQuaternion k' h m a es H)
      as (q & qx & qy & qz & qw & Hq & ->)
  end.
  js_run.
  match goal with |- context [ (Matrix.new ≫= ?k') ?hh ] =>
    destruct (run_new k' hh) as (ar & r & Har & Hr & Hne & ->)
  end.
  apply lookup_insert_None in Har as [Har ?].
  apply lookup_insert_None in Hr as [Hr ?].
  match goal with
  | |- context [ (Matrix.setRotationFromQuaternion r ?x' ?y' ?z' ?w'
                  ≫= ?k') ?hh ] =>
      destruct (run_setRotationFromQuaternion k' hh r ar
                  [1; 0; 0; 0; 0; 1; 0; 0; 0; 0; 1; 0; 0; 0; 0; 1]
                  x' y' z' w')
        as (es' & Hlen & Hkeep & ->)
  end.
  { repeat split; heap_lookup. }
  eexists r, ar, es', _.
  split; [reflexivity|]. do 2 (split; [done|]).
  split; [heap_kept|].
  split; [repeat split; [heap_lookup..|done]|].
  repeat split; (rewrite Hkeep; [reflexivity|]);
    repeat first [ by apply list_elem_of_here | apply list_elem_of_further ].
Qed.
End methods.

Section extraction.
Implicit Types (h : heap) (m a : loc) (es : list R).
Local Open Scope R_scope.

Lemma run_toMatrix3 h m a es :
  is_matrix h m a es →
  ∃ r,
    h !! r = None ∧
    Matrix.toMatrix3 m h
    = Some (Normal r,
            <[r := ArrayObj ((es !!.) <$> [0; 1; 2; 4; 5; 6; 2; 6; 10]%nat)]>
              h).
Proof.
  intros H. matrix_elements H.
  rewrite run_last. unfold Matrix.toMatrix3. js_run.
  by exists l.
Qed.

Lemma run_setRotation_unsupported h m x y z order :
  order ∉ supported_orders →
  Matrix.setRotation m x y z (Some order) h
  = Some (Throw ("Unrecognized order " +:+ order), h).
Proof.
  intros (?&?&?&?&?&?&?)%unsupported_order.
  unfold Matrix.setRotation. simpl default. cbv zeta.
  by rewrite !decide_False by done.
Qed.

Lemma run_toEuler_unsupported h m a es order :
  is_matrix h m a es → order ∉ supported_orders →
  Matrix.toEuler m (Some order) h = Some (Throw "Invalid euler order.", h).
Proof.
  intros H (?&?&?&?&?&?&?)%unsupported_order. matrix_elements H.
  rewrite run_last. unfold Matrix.toEuler. simpl default. by js_run.
Qed.
End extraction.

(** ** The round trip through Euler angles, order by order *)

Ltac run_round_trip :=
  unfold returns_angles, round_trip; rewrite run_last;
  unfold Matrix.toEuler, Matrix.setRotation, Matrix.new; simpl default;
  cbv zeta; js_run; rewrite ?run_ret.




Section round_trips.
Implicit Types (h : heap).
Local Open Scope R_scope.








(** The last angle that order XZY gives back: [setRotation] has filled
    the matrix of order YZX. *)
Lemma round_trip_XZY_last h x y z :
  let cx := cos (radians x) in let sx := sin (radians x) in
  let cy := cos (radians y) in let sy := sin (radians y) in
  let sz := sin (radians z) in
  ∃ r h' x' y',
    round_trip "XZY" x y z h = Some (Normal r, h') ∧
    h' !! r
    = Some (ArrayObj
              (Some <$> [x'; y';
                         degrees (asin (- clamp (sx * sy - cx * cy * sz)
                                            (- 1) 1))])).
Proof.
  intros cx sx cy sy sz. run_round_trip.
  all: eexists _, _, _, _; split; [reflexivity|].
  all: by rewrite lookup_insert_eq.
Qed.
End round_trips.

(** ** The properties *)

Section properties.
Implicit Types (h : heap) (m a : loc) (es : list R).
Local Open Scope R_scope.

(** C1 (what the code does).  For every well-formed instance [m], all
    angles and every supported order (or none given), [rotate] returns
    the receiver [m] and leaves the whole heap it started from as it was,
    the sixteen elements of [m] included: the instance that
    [applyQuaternion] builds is dropped, [m] is not rotated. *)
Theorem rotate_keeps_receiver h m a es (x y z : R) (order : option EulerOrder) :
  is_matrix h m a es → default "XYZ"%string order ∈ supported_orders →
  ∃ h',
    Matrix.rotate m x y z order h = Some (Normal m, h') ∧
    h ⊆ h' ∧ is_matrix h' m a es.
Proof.
  intros H Horder. rewrite run_last. unfold Matrix.rotate.
  rewrite ?run_bind_assoc.
  match goal with |- context [ (Matrix.new ≫= ?k') ?hh ] =>
    destruct (run_new k' hh) as (a0 & m0 & Ha0 & Hm0 & Hne & ->)
  end.
  rewrite ?run_bind_assoc.
  match goal with
  | |- context [ (Matrix.setRotation m0 x y z order ≫= ?k') ?hh ] =>
      destruct (run_setRotation k' hh m0 a0
                  [1; 0; 0; 0; 0; 1; 0; 0; 0; 0; 1; 0; 0; 0; 0; 1]
                  x y z order)
        as (es0 & Hlen0 & ->); [repeat split; heap_lookup|done|]
  end.
  rewrite insert_insert_ne, insert_insert_eq by done.
  rewrite ?run_bind_assoc.
  match goal with |- context [ (Matrix.toQuaternion m0 ≫= ?k') ?hh ] =>
    destruct (run_toQuaternion k' hh m0 a0 es0)
      as (q & qx & qy & qz & qw & Hq & ->);
      [repeat split; [heap_lookup..|done]|]
  end.
  do 2 (apply lookup_insert_None in Hq as [Hq ?]).
  js_run. rewrite ?run_bind_assoc.
  match goal with
  | |- context [ (Matrix.applyQuaternion m ?x' ?y' ?z' ?w' ≫= ?k') ?hh ] =>
      destruct (run_applyQuaternion k' hh m a es x' y' z' w')
        as (r & ar & es' & h' & -> & _ & _ & Hsub & _)
  end.
  { do 3 (apply is_matrix_insert_fresh; [|heap_lookup]). done. }
  js_run. rewrite run_ret. exists h'.
  assert (h ⊆ h').
  { etrans; [|exact Hsub]. heap_kept. }
  split; [done|]. split; [done|]. by eapply is_matrix_kept.
Qed.

Lemma rotate_keeps_receiver_witness :
  ∃ h',
    Matrix.rotate 1 90 0 0 (Some "XYZ"%string) sample_heap
    = Some (Normal 1%nat, h') ∧
    sample_heap ⊆ h' ∧ is_matrix h' 1 0 sample_elements.
Proof.
  apply (rotate_keeps_receiver sample_heap 1 0 sample_elements 90 0 0
           (Some "XYZ"%string) sample_is_matrix).
  simpl. apply list_elem_of_here.
Defined.




(** C2 as stated fails: at (45, 135, 45) with order XYZ no angle is near
    0, 90 or 180 degrees and the gimbal branch is not taken, but the
    middle angle comes back as at most 90 degrees. *)
Lemma sqrt_2_gt : 1.1 < sqrt 2.
Proof.
  rewrite <- (sqrt_square 1.1) by lra. apply sqrt_lt_1; lra.
Qed.

Lemma inv_sqrt_2_bounds : 0 < / sqrt 2 < 0.95.
Proof.
  pose proof sqrt_2_gt. split; [apply Rinv_0_lt_compat; lra|].
  apply (Rlt_trans _ (/ 1.1)); [apply Rinv_lt_contravar; nra|].
  apply (Rmult_lt_reg_r 1.1); [lra|]. rewrite Rinv_l by lra. lra.
Qed.


(** Order XZY is outside the round trip: [setRotation] fills the matrix
    of order YZX for it, and at (45, 45, 45) the last angle comes back
    as at most 0 degrees. *)
Lemma asin_nonneg v : 0 <= v <= 1 → 0 <= asin v.
Proof.
  intros Hv. destruct (Rle_dec 0 (asin v)) as [|Hn]; [done|]. exfalso.
  pose proof (asin_bound v). pose proof PI_RGT_0.
  assert (sin (asin v) < 0) by (apply sin_lt_0_var; lra).
  rewrite sin_asin in *; lra.
Qed.

Lemma round_trip_XZY_loses_z :
  ¬ returns_angles (round_trip "XZY" 45 45 45) ∅ 45 45 45.
Proof.
  intros (r & h' & x' & y' & z' & Hrun & Hr & _ & _ & Hz).
  destruct (round_trip_XZY_last ∅ 45 45 45)
    as (r0 & h0 & x0 & y0 & Hrun0 & Hr0).
  rewrite Hrun0 in Hrun. injection Hrun as <- <-.
  rewrite Hr0 in Hr. injection Hr as _ _ Hz'.
  replace (radians 45) with (PI / 4) in Hz' by (unfold radians; field).
  rewrite sin_PI4, cos_PI4 in Hz'.
  pose proof inv_sqrt_2_bounds as [??].
  assert (/ sqrt 2 * / sqrt 2 = / 2) as Hsq.
  { rewrite <- Rinv_mult, sqrt_sqrt; lra. }
  set (v := 1 / sqrt 2 * (1 / sqrt 2)
            - 1 / sqrt 2 * (1 / sqrt 2) * (1 / sqrt 2)) in Hz'.
  assert (v = / 2 * (1 - / sqrt 2)) as Hv.
  { unfold v, Rdiv. rewrite !Rmult_1_l, Hsq. ring. }
  assert (0 <= v <= 1) by nra.
  rewrite clamp_id, asin_opp in Hz' by lra.
  pose proof (asin_nonneg v).
  assert (degrees (- asin v) <= degrees 0) by (apply degrees_le; lra).
  rewrite degrees_0 in *. apply Rabs_def2 in Hz. lra.
Qed.

(** C3 (what the code does).  The test [round(sy, 4) === 3.1416] is on
    the sine of [y], which is at most 1: whenever that sine is not 0,
    as at y = 179.99999, [setRotation] with order ZYZ takes neither
    short branch and writes all nine elements of the rotation block. *)
Theorem setRotation_ZYZ_writes_nine h m a es (x y z : R) :
  let cx := cos (radians x) in let sx := sin (radians x) in
  let cy := cos (radians y) in let sy := sin (radians y) in
  let cz := cos (radians z) in let sz := sin (radians z) in
  is_matrix h m a es → sy ≠ 0 →
  ∃ es',
    Matrix.setRotation m x y z (Some "ZYZ"%string) h
    = Some (Normal m, <[a := ArrayObj (Some <$> es')]> h) ∧
    es' !! 0%nat = Some (cx * cy * cz - sx * sz) ∧
    es' !! 4%nat = Some (- cz * sx - cy * cx * sz) ∧
    es' !! 8%nat = Some (cx * sy) ∧
    es' !! 1%nat = Some (sx * cy * cz + cx * sz) ∧
    es' !! 5%nat = Some (cx * cz - cy * sx * sz) ∧
    es' !! 9%nat = Some (sx * sy) ∧
    es' !! 2%nat = Some (- sy * cz) ∧
    es' !! 6%nat = Some (sy * sz) ∧
    es' !! 10%nat = Some cy.
Proof.
  intros cx sx cy sy cz sz H Hsy. matrix_elements H.
  rewrite run_last. unfold Matrix.setRotation. simpl default. cbv zeta.
  repeat (rewrite decide_False by discriminate).
  rewrite decide_True by reflexivity.
  rewrite (decide_False (P := sin (radians y) = 0)) by done.
  rewrite (decide_False (P := round _ _ = _)) by apply round_sin_not_PI.
  js_run. rewrite run_ret.
  eexists [_;_;_;_;_;_;_;_;_;_;_;_;_;_;_;_]. split; [reflexivity|].
  repeat split.
Qed.

Lemma setRotation_ZYZ_writes_nine_witness :
  ∃ es',
    Matrix.setRotation 1 0 179.99999 0 (Some "ZYZ"%string) sample_heap
    = Some (Normal 1%nat, <[0%nat := ArrayObj (Some <$> es')]> sample_heap) ∧
    es' !! 8%nat = Some (cos (radians 0) * sin (radians 179.99999)) ∧
    es' !! 10%nat = Some (cos (radians 179.99999)).
Proof.
  destruct (setRotation_ZYZ_writes_nine sample_heap 1 0 sample_elements
              0 179.99999 0 sample_is_matrix sin_near_180)
    as (es' & Hrun & _ & _ & H8 & _ & _ & _ & _ & _ & H10).
  exists es'. repeat split; assumption.
Defined.

(** C4.  For all angles, [setRotation] with order XZY does what it does
    with order YZX: same result, same heap. *)
Theorem setRotation_XZY_is_YZX h (this : loc) (x y z : R) :
  Matrix.setRotation this x y z (Some "XZY"%string) h
  = Matrix.setRotation this x y z (Some "YZX"%string) h.
Proof.
  unfold Matrix.setRotation. simpl default. cbv zeta.
  repeat (rewrite decide_False by discriminate).
  rewrite !decide_True by reflexivity.
  repeat (rewrite decide_False by discriminate).
  reflexivity.
Qed.

(** C5 (as amended).  For every order outside the seven supported ones,
    [setRotation] throws "Unrecognized order " followed by the order and
    [toEuler] throws the fixed message "Invalid euler order."; both
    leave the heap, hence the sixteen elements, as they were. *)
Theorem invalid_order_throws h m a es (x y z : R) (order : EulerOrder) :
  is_matrix h m a es → order ∉ supported_orders →
  Matrix.setRotation m x y z (Some order) h
  = Some (Throw ("Unrecognized order " +:+ order), h) ∧
  Matrix.toEuler m (Some order) h
  = Some (Throw "Invalid euler order.", h).
Proof.
  intros H Hbad. split.
  - by apply run_setRotation_unsupported.
  - by eapply run_toEuler_unsupported.
Qed.

Lemma invalid_order_throws_witness :
  Matrix.setRotation 1 0 0 0 (Some "BAD"%string) sample_heap
  = Some (Throw "Unrecognized order BAD", sample_heap) ∧
  Matrix.toEuler 1 (Some "BAD"%string) sample_heap
  = Some (Throw "Invalid euler order.", sample_heap).
Proof.
  exact (invalid_order_throws sample_heap 1 0 sample_elements 0 0 0 "BAD"
           sample_is_matrix BAD_unsupported).
Defined.

(** C5 as stated fails: the error of [toEuler("BAD")] does not name the
    order. *)
Lemma toEuler_error_omits_order :
  ∃ message,
    Matrix.toEuler 1 (Some "BAD"%string) sample_heap
    = Some (Throw message, sample_heap) ∧
    ¬ identifies message "BAD".
Proof.
  exists "Invalid euler order."%string. split.
  - exact (run_toEuler_unsupported sample_heap 1 0 sample_elements "BAD"
             sample_is_matrix BAD_unsupported).
  - unfold identifies. by vm_compute.
Qed.

(** C6.  On a fresh instance, [toEuler] returns [0, 0, 0] for each of
    the seven supported orders and [toQuaternion] returns
    [0, 0, 0, 1]. *)
Theorem identity_extraction h :
  Forall (λ order,
    ∃ r h',
      (m ← Matrix.new; Matrix.toEuler m (Some order)) h
      = Some (Normal r, h') ∧
      h' !! r = Some (ArrayObj (Some <$> [0; 0; 0]))) supported_orders ∧
  ∃ r h',
    (m ← Matrix.new; Matrix.toQuaternion m) h = Some (Normal r, h') ∧
    h' !! r = Some (ArrayObj (Some <$> [0; 0; 0; 1])).
Proof.
  split.
  - unfold supported_orders.
    repeat apply Forall_cons_2; [..|apply Forall_nil_2].
    all: rewrite run_last; unfold Matrix.toEuler, Matrix.new.
    all: simpl default; js_run; rewrite run_ret.
    all: try (exfalso;
              match goal with H : ¬ (JSMath.abs _ < _) |- _ => apply H end;
              unfold JSMath.abs; rewrite Rabs_R0; lra).
    all: try (exfalso; lra).
    all: eexists _, _; (split; [reflexivity|]); rewrite lookup_insert_eq.
    all: rewrite ?Ropp_0, ?clamp_0, ?Ropp_0, ?asin_0, ?atan2_0_1, ?degrees_0.
    all: done.
  - rewrite run_last. unfold Matrix.toQuaternion, Matrix.new.
    js_run; rewrite run_ret; try (exfalso; lra).
    eexists _, _. split; [reflexivity|]. rewrite lookup_insert_eq.
    replace (1 + 1 + 1 + 1.0) with (2 * 2) by lra.
    rewrite sqrt_square by lra.
    repeat f_equal; lra.
Qed.

(** C7.  For every well-formed instance [m], [m.multiplied(new Matrix())]
    and [new Matrix().multiplied(m)] are new instances with the sixteen
    elements of [m]. *)
Theorem multiplied_identity h m a es :
  is_matrix h m a es →
  (∃ r ar h',
     (i ← Matrix.new; Matrix.multiplied m i) h = Some (Normal r, h') ∧
     h !! r = None ∧ is_matrix h' r ar es ∧ is_matrix h' m a es) ∧
  (∃ r ar h',
     (i ← Matrix.new; Matrix.multiplied i m) h = Some (Normal r, h') ∧
     h !! r = None ∧ is_matrix h' r ar es ∧ is_matrix h' m a es).
Proof.
  intros H. matrix_elements H. split.
  all: rewrite run_last.
  all: unfold Matrix.multiplied, Matrix.toArray, Matrix.setFromMatrixArray,
         Matrix.new.
  all: js_run; rewrite run_ret.
  all: eexists _, _, _; (split; [reflexivity|]); (split; [done|]).
  all: split; (split; [heap_lookup|]); (split; [|done]); heap_reduce.
  all: try done.
  all: simpl fmap; repeat f_equal; ring.
Qed.

Lemma multiplied_identity_witness :
  (∃ r ar h',
     (i ← Matrix.new; Matrix.multiplied 1 i) sample_heap
     = Some (Normal r, h') ∧
     sample_heap !! r = None ∧ is_matrix h' r ar sample_elements ∧
     is_matrix h' 1 0 sample_elements) ∧
  (∃ r ar h',
     (i ← Matrix.new; Matrix.multiplied i 1) sample_heap
     = Some (Normal r, h') ∧
     sample_heap !! r = None ∧ is_matrix h' r ar sample_elements ∧
     is_matrix h' 1 0 sample_elements).
Proof.
  exact (multiplied_identity sample_heap 1 0 sample_elements
           sample_is_matrix).
Defined.

(** C8 (as amended).  For every well-formed instance whose elements 2
    and 10 differ, the entry at index 8 of the array that [toMatrix3]
    returns is element 10, not element 2; element 2 is the entry at
    index 6 and element 6 the entry at index 7. *)
Theorem toMatrix3_last_entry h m a es (e2 e10 : R) :
  is_matrix h m a es →
  es !! 2%nat = Some e2 → es !! 10%nat = Some e10 → e2 ≠ e10 →
  ∃ r items h',
    Matrix.toMatrix3 m h = Some (Normal r, h') ∧
    h' !! r = Some (ArrayObj items) ∧
    items !! 8%nat = Some (Some e10) ∧
    items !! 8%nat ≠ Some (Some e2) ∧
    items !! 6%nat = Some (Some e2) ∧
    items !! 7%nat = Some (es !! 6%nat).
Proof.
  intros H H2 H10 Hne.
  destruct (run_toMatrix3 h m a es H) as (r & _ & Hrun).
  eexists _, _, _. split; [exact Hrun|]. rewrite lookup_insert_eq.
  split; [done|]. simpl. rewrite H2, H10. repeat split. congruence.
Qed.

Lemma toMatrix3_last_entry_witness :
  ∃ r items h',
    Matrix.toMatrix3 1 sample_heap = Some (Normal r, h') ∧
    h' !! r = Some (ArrayObj items) ∧
    items !! 8%nat = Some (Some 0.8) ∧
    items !! 8%nat ≠ Some (Some 0.5) ∧
    items !! 6%nat = Some (Some 0.5) ∧
    items !! 7%nat = Some (Some 0).
Proof.
  apply (toMatrix3_last_entry sample_heap 1 0 sample_elements 0.5 0.8);
    [exact sample_is_matrix|reflexivity|reflexivity|lra].
Defined.

(** C8 as stated fails: with element 2 equal to 0.5 and element 10 equal
    to 0.8, the entry at index 8 is not element 2. *)
Lemma toMatrix3_last_entry_is_not_element_2 :
  sample_elements !! 2%nat = Some 0.5 ∧
  sample_elements !! 10%nat = Some 0.8 ∧
  ∃ r items h',
    Matrix.toMatrix3 1 sample_heap = Some (Normal r, h') ∧
    h' !! r = Some (ArrayObj items) ∧
    items !! 8%nat ≠ Some (Some 0.5).
Proof.
  do 2 (split; [reflexivity|]).
  destruct (run_toMatrix3 sample_heap 1 0 sample_elements sample_is_matrix)
    as (r & _ & Hrun).
  eexists _, _, _. split; [exact Hrun|]. rewrite lookup_insert_eq.
  split; [done|]. simpl. intros [=]. lra.
Qed.

(** C9.  For every well-formed instance [m] and every quaternion,
    [applyQuaternion] returns a new instance with a new array, leaves
    [m] and its sixteen elements as they were, and the new instance has
    0 at 12, 13, 14 and (0, 0, 0, 1) at 3, 7, 11, 15. *)
Theorem applyQuaternion_pure_rotation h m a es (x y z w : R) :
  is_matrix h m a es →
  ∃ r ar es' h',
    Matrix.applyQuaternion m x y z w h = Some (Normal r, h') ∧
    h !! r = None ∧ h !! ar = None ∧
    is_matrix h' m a es ∧
    is_matrix h' r ar es' ∧
    es' !! 12%nat = Some 0 ∧ es' !! 13%nat = Some 0 ∧
    es' !! 14%nat = Some 0 ∧
    es' !! 3%nat = Some 0 ∧ es' !! 7%nat = Some 0 ∧
    es' !! 11%nat = Some 0 ∧ es' !! 15%nat = Some 1.
Proof.
  intros H. rewrite run_last.
  destruct (run_applyQuaternion mret h m a es x y z w H)
    as (r & ar & es' & h' & -> & ? & ? & ? & ? & ? & ? & ? & ? & ? & ? & ?).
  exists r, ar, es', h'. rewrite run_ret.
  repeat split; try done; by eapply is_matrix_kept.
Qed.

Lemma applyQuaternion_pure_rotation_witness :
  ∃ r ar es' h',
    Matrix.applyQuaternion 1 0 0 0 1 sample_heap = Some (Normal r, h') ∧
    sample_heap !! r = None ∧ sample_heap !! ar = None ∧
    is_matrix h' 1 0 sample_elements ∧
    is_matrix h' r ar es' ∧
    es' !! 12%nat = Some 0 ∧ es' !! 13%nat = Some 0 ∧
    es' !! 14%nat = Some 0 ∧
    es' !! 3%nat = Some 0 ∧ es' !! 7%nat = Some 0 ∧
    es' !! 11%nat = Some 0 ∧ es' !! 15%nat = Some 1.
Proof.
  exact (applyQuaternion_pure_rotation sample_heap 1 0 sample_elements
           0 0 0 1 sample_is_matrix).
Defined.

(** C10.  For every well-formed instance, [toMatrix3] returns a new
    array with the elements at 0, 1, 2, 4, 5, 6, 2, 6, 10, in that
    order. *)
Theorem toMatrix3_entries h m a es :
  is_matrix h m a es →
  ∃ r,
    h !! r = None ∧
    Matrix.toMatrix3 m h
    = Some (Normal r,
            <[r := ArrayObj ((es !!.) <$> [0; 1; 2; 4; 5; 6; 2; 6; 10]%nat)]>
              h).
Proof. apply run_toMatrix3. Qed.

Lemma toMatrix3_entries_witness :
  ∃ r,
    sample_heap !! r = None ∧
    Matrix.toMatrix3 1 sample_heap
    = Some (Normal r,
            <[r := ArrayObj (Some <$> [1; 0; 0.5; 0; 1; 0; 0.5; 0; 0.8])]>
              sample_heap).
Proof.
  exact (toMatrix3_entries sample_heap 1 0 sample_elements
           sample_is_matrix).
Defined.
End properties.

(** * Further properties of the code *)

Local Open Scope R_scope.

(** ** The helpers of src/math.ts *)

(** X1. [degrees] and [radians] are inverse of one another. *)
Theorem degrees_radians_inverse (a : R) :
  degrees (radians a) = a ∧ radians (degrees a) = a.
Proof.
  split; [apply degrees_radians|].
  unfold degrees, radians. field. apply PI_neq0.
Qed.

(** X2. For bounds in order, [clamp value lo hi] lies between the bounds,
    is [value] when [value] does, and is the nearer bound otherwise. *)
Theorem clamp_range (value lo hi : R) :
  lo <= hi →
  lo <= clamp value lo hi <= hi ∧
  (lo <= value <= hi → clamp value lo hi = value) ∧
  (value <= lo → clamp value lo hi = lo) ∧
  (hi <= value → clamp value lo hi = hi).
Proof.
  intros H. unfold clamp, JSMath.max, JSMath.min.
  repeat split.
  - apply Rmax_l.
  - apply Rmax_lub; [done|apply Rmin_l].
  - intros [??]. rewrite Rmin_right by done. by rewrite Rmax_right.
  - intros ?. rewrite Rmin_right by lra. by rewrite Rmax_left.
  - intros ?. rewrite Rmin_left by done. by rewrite Rmax_right.
Qed.

Lemma clamp_range_witness :
  -1 <= clamp 2 (-1) 1 <= 1 ∧
  (-1 <= 2 <= 1 → clamp 2 (-1) 1 = 2) ∧
  (2 <= -1 → clamp 2 (-1) 1 = -1) ∧
  (1 <= 2 → clamp 2 (-1) 1 = 1).
Proof. apply (clamp_range 2 (-1) 1). lra. Defined.

Lemma has_exponent_integer (k : Z) :
  has_exponent (IZR k) = bool_decide (10 ^ 21 <= Rabs (IZR k)).
Proof.
  unfold has_exponent, JSMath.abs.
  destruct (bool_decide (10 ^ 21 <= _)); [done|].
  simpl. apply bool_decide_eq_false. intros [H1 H2].
  rewrite <- abs_IZR in *.
  assert (0 < Z.abs k)%Z by (apply lt_IZR; lra).
  assert (1 <= IZR (Z.abs k)) by (apply IZR_le; lia).
  assert (/ 10 ^ 6 < 1); [|lra].
  rewrite <- Rinv_1. apply Rinv_lt_contravar; lra.
Qed.

Lemma pow10_IZR (n : nat) : 10 ^ n = IZR (10 ^ Z.of_nat n).
Proof. by rewrite <- pow_IZR. Qed.


(** Two runs of [round]: 1.005 to two places is 1.01, and 1e16 to the
    five places of the default is NaN. *)
Lemma round_examples :
  round 1.005 (Some 2%nat) = Some 1.01 ∧ round (10 ^ 16) None = None.
Proof.
  split; rewrite round_shift; simpl default;
    unfold read_shifted, JSMath.round.
  - replace (Zfloor (1.005 * 10 ^ 2 + / 2)) with 101%Z
      by (symmetry; apply Zfloor_eq; lra).
    rewrite has_exponent_integer, bool_decide_false.
    + f_equal. lra.
    + rewrite Rabs_right; lra.
  - replace (10 ^ 16 * 10 ^ 5) with (IZR (10 ^ 21))
      by (rewrite !pow10_IZR, <- mult_IZR; f_equal).
    replace (Zfloor (IZR (10 ^ 21) + / 2)) with (10 ^ 21)%Z
      by (symmetry; apply Zfloor_eq; lra).
    rewrite has_exponent_integer, bool_decide_true; [done|].
    rewrite pow10_IZR. rewrite Rabs_right; [apply Rle_refl|].
    apply Rle_ge, IZR_le. done.
Qed.

(** ** Position, copies and shared arrays *)

Lemma two_instances_first : is_matrix two_instances 1 0 sample_elements.
Proof. repeat split. Qed.

Lemma two_instances_second : is_matrix two_instances 3 2 sample_elements.
Proof. repeat split. Qed.

Lemma is_matrix_length h m a es : is_matrix h m a es → length es = 16%nat.
Proof. by intros (_ & _ & ?). Qed.

Section position.
Context {B : Type}.
Implicit Types (h : heap) (m a : loc) (es : list R).

Lemma run_setPosition (k : loc → JS B) h m a es x y z :
  is_matrix h m a es →
  (Matrix.setPosition m x y z ≫= k) h
  = k m (<[a := ArrayObj (Some <$> positioned es x y z)]> h).
Proof.
  intros H. matrix_elements H. unfold Matrix.setPosition. by js_run.
Qed.
End position.

(** X4. [setPosition] returns the receiver and writes x, y, z at the
    indices 12, 13, 14 of its array: the thirteen other elements, and every
    other object of the heap, are as before. *)
Theorem setPosition_frame (h : heap) (m a : loc) (es : list R) (x y z : R) :
  is_matrix h m a es →
  ∃ es' h',
    Matrix.setPosition m x y z h = Some (Normal m, h') ∧
    is_matrix h' m a es' ∧
    es' !! 12%nat = Some x ∧ es' !! 13%nat = Some y ∧ es' !! 14%nat = Some z ∧
    (∀ i, i ∉ [12; 13; 14]%nat → es' !! i = es !! i) ∧
    keeps_heap_except a h h'.
Proof.
  intros H. rewrite run_last, (run_setPosition _ _ _ _ _ _ _ _ H), run_ret.
  destruct H as (Hm & Ha & Hlen).
  assert (m ≠ a) by congruence.
  eexists _, _. split; [reflexivity|].
  sixteen es Hlen.
  split; [repeat split; heap_lookup|].
  repeat split.
  - intros i Hi.
    do 16 (destruct i as [|i]; [try done; exfalso; apply Hi; set_solver|]).
    done.
  - intros l Hl. by rewrite lookup_insert_ne.
Qed.

Lemma setPosition_frame_witness :
  ∃ es' h',
    Matrix.setPosition 1 7 8 9 sample_heap = Some (Normal 1%nat, h') ∧
    is_matrix h' 1 0 es' ∧
    es' !! 12%nat = Some 7 ∧ es' !! 13%nat = Some 8 ∧ es' !! 14%nat = Some 9 ∧
    (∀ i, i ∉ [12; 13; 14]%nat → es' !! i = sample_elements !! i) ∧
    keeps_heap_except 0 sample_heap h'.
Proof.
  exact (setPosition_frame sample_heap 1 0 sample_elements 7 8 9
           sample_is_matrix).
Defined.

(** X5. [setFromMatrixArray] stores the reference it is given, not a copy:
    two instances set from the same array share it, and [setPosition] on
    one of them is seen through the other. *)
Theorem setFromMatrixArray_shares_array (h : heap) (m1 m2 a1 a2 arr : loc)
    (es : list R) (x y z : R) :
  h !! m1 = Some (MatrixObj a1) → h !! m2 = Some (MatrixObj a2) → m1 ≠ m2 →
  h !! arr = Some (ArrayObj (Some <$> es)) → length es = 16%nat →
  ∃ h',
    (Matrix.setFromMatrixArray m1 arr;;
     Matrix.setFromMatrixArray m2 arr;;
     Matrix.setPosition m1 x y z) h = Some (Normal m1, h') ∧
    is_matrix h' m1 arr (positioned es x y z) ∧
    is_matrix h' m2 arr (positioned es x y z).
Proof.
  intros Hm1 Hm2 Hne Harr Hlen.
  assert (m1 ≠ arr ∧ m2 ≠ arr) as [??] by (split; congruence).
  rewrite run_last. unfold Matrix.setFromMatrixArray. js_run.
  match goal with |- context [ (Matrix.setPosition m1 x y z ≫= ?k') ?hh ] =>
    rewrite (run_setPosition k' hh m1 arr es x y z)
  end; [|repeat split; [heap_lookup..|done]].
  rewrite run_ret. eexists. split; [reflexivity|].
  sixteen es Hlen.
  split; repeat split; heap_lookup.
Qed.

Lemma setFromMatrixArray_shares_array_witness :
  ∃ h',
    (Matrix.setFromMatrixArray 1 0;;
     Matrix.setFromMatrixArray 3 0;;
     Matrix.setPosition 1 7 8 9) two_instances = Some (Normal 1%nat, h') ∧
    is_matrix h' 1 0 (positioned sample_elements 7 8 9) ∧
    is_matrix h' 3 0 (positioned sample_elements 7 8 9).
Proof.
  apply (setFromMatrixArray_shares_array two_instances 1 3 0 2 0
           sample_elements 7 8 9); (reflexivity || lia).
Defined.

(** X6. [toArray] and [getElements] return a new array holding the sixteen
    elements: a later [setPosition] on the matrix does not change the
    array that was returned. *)
Theorem toArray_is_a_copy (h : heap) (m a : loc) (es : list R) (x y z : R) :
  is_matrix h m a es →
  (∃ c h',
     (c ← Matrix.toArray m; Matrix.setPosition m x y z;; mret c) h
     = Some (Normal c, h') ∧
     h !! c = None ∧
     h' !! c = Some (ArrayObj (Some <$> es)) ∧
     is_matrix h' m a (positioned es x y z)) ∧
  (∃ c h',
     (c ← Matrix.getElements m; Matrix.setPosition m x y z;; mret c) h
     = Some (Normal c, h') ∧
     h !! c = None ∧
     h' !! c = Some (ArrayObj (Some <$> es)) ∧
     is_matrix h' m a (positioned es x y z)).
Proof.
  intros H.
  assert (∃ c, h !! c = None ∧ ∀ B (k : loc → JS B),
            (Matrix.toArray m ≫= k) h
            = k c (<[c := ArrayObj (Some <$> es)]> h)) as (c & Hc & Hrun).
  { destruct H as (Hm & Ha & Hlen). exists (fresh (dom h)).
    split; [apply not_elem_of_dom, is_fresh|]. intros B k.
    unfold Matrix.toArray. rewrite run_bind_assoc.
    rewrite (run_get_elements _ _ _ _ Hm).
    by rewrite (run_array_spread _ _ _ _ Ha). }
  assert (is_matrix (<[c := ArrayObj (Some <$> es)]> h) m a es)
    by by apply is_matrix_insert_fresh.
  pose proof H as (Hm & Ha & Hlen).
  assert (c ≠ a ∧ c ≠ m) as [??] by (split; congruence).
  split; rewrite run_last, run_bind_assoc;
    change (Matrix.getElements m) with (Matrix.toArray m);
    rewrite Hrun, run_bind_assoc;
    match goal with |- context [ (Matrix.setPosition m x y z ≫= ?k') ?hh ] =>
      rewrite (run_setPosition k' hh m a es x y z) by done
    end;
    js_run; rewrite run_ret;
    exists c; eexists; (split; [reflexivity|]); (split; [done|]);
    sixteen es Hlen;
    (split; [heap_lookup|repeat split; heap_lookup]).
Qed.

Lemma toArray_is_a_copy_witness :
  (∃ c h',
     (c ← Matrix.toArray 1; Matrix.setPosition 1 7 8 9;; mret c) sample_heap
     = Some (Normal c, h') ∧
     sample_heap !! c = None ∧
     h' !! c = Some (ArrayObj (Some <$> sample_elements)) ∧
     is_matrix h' 1 0 (positioned sample_elements 7 8 9)) ∧
  (∃ c h',
     (c ← Matrix.getElements 1; Matrix.setPosition 1 7 8 9;; mret c)
       sample_heap
     = Some (Normal c, h') ∧
     sample_heap !! c = None ∧
     h' !! c = Some (ArrayObj (Some <$> sample_elements)) ∧
     is_matrix h' 1 0 (positioned sample_elements 7 8 9)).
Proof.
  exact (toArray_is_a_copy sample_heap 1 0 sample_elements 7 8 9
           sample_is_matrix).
Defined.

(** X7. [clone] returns a new instance on a new array with the same
    sixteen elements, independent of the original: [setPosition] on the
    clone leaves the original as it was, and [setPosition] on the original
    leaves the clone as it was. *)
Theorem clone_is_independent (h : heap) (m a : loc) (es : list R) (x y z : R) :
  is_matrix h m a es →
  (∃ c ac h',
     (c ← Matrix.clone m; Matrix.setPosition c x y z) h
     = Some (Normal c, h') ∧
     h !! c = None ∧ h !! ac = None ∧
     is_matrix h' m a es ∧
     is_matrix h' c ac (positioned es x y z)) ∧
  (∃ c ac h',
     (c ← Matrix.clone m; Matrix.setPosition m x y z;; mret c) h
     = Some (Normal c, h') ∧
     h !! c = None ∧ h !! ac = None ∧
     is_matrix h' m a (positioned es x y z) ∧
     is_matrix h' c ac es).
Proof.
  intros H. pose proof H as (Hm & Ha & Hlen).
  assert (m ≠ a) by congruence.
  split; rewrite run_last;
    unfold Matrix.clone, Matrix.toArray, Matrix.setFromMatrixArray,
      Matrix.new; js_run.
  - match goal with |- context [ (Matrix.setPosition ?c x y z ≫= ?k') ?hh ] =>
      rewrite (run_setPosition k' hh c l1 es x y z)
    end; [|repeat split; [heap_lookup..|done]].
    rewrite run_ret. eexists l0, l1, _. split; [reflexivity|].
    do 2 (split; [done|]). sixteen es Hlen.
    split; repeat split; heap_lookup.
  - rewrite ?run_bind_assoc.
    match goal with |- context [ (Matrix.setPosition m x y z ≫= ?k') ?hh ] =>
      rewrite (run_setPosition k' hh m a es x y z)
    end; [|repeat split; [heap_lookup..|done]].
    js_run. rewrite run_ret. eexists l0, l1, _. split; [reflexivity|].
    do 2 (split; [done|]). sixteen es Hlen.
    split; repeat split; heap_lookup.
Qed.

Lemma clone_is_independent_witness :
  (∃ c ac h',
     (c ← Matrix.clone 1; Matrix.setPosition c 7 8 9) sample_heap
     = Some (Normal c, h') ∧
     sample_heap !! c = None ∧ sample_heap !! ac = None ∧
     is_matrix h' 1 0 sample_elements ∧
     is_matrix h' c ac (positioned sample_elements 7 8 9)) ∧
  (∃ c ac h',
     (c ← Matrix.clone 1; Matrix.setPosition 1 7 8 9;; mret c) sample_heap
     = Some (Normal c, h') ∧
     sample_heap !! c = None ∧ sample_heap !! ac = None ∧
     is_matrix h' 1 0 (positioned sample_elements 7 8 9) ∧
     is_matrix h' c ac sample_elements).
Proof.
  exact (clone_is_independent sample_heap 1 0 sample_elements 7 8 9
           sample_is_matrix).
Defined.

(** ** The matrix product *)

Lemma matrix_product_length a b : length (matrix_product a b) = 16%nat.
Proof. unfold matrix_product. by rewrite length_fmap, length_seq. Qed.

Section product.
Context {B : Type}.
Implicit Types (h : heap) (m a : loc) (es : list R).

Lemma run_multiplied (k : loc → JS B) h this m a1 a2 es1 es2 :
  is_matrix h this a1 es1 → is_matrix h m a2 es2 →
  ∃ r ar h',
    (Matrix.multiplied this m ≫= k) h = k r h' ∧
    h !! r = None ∧ h !! ar = None ∧ h ⊆ h' ∧
    is_matrix h' r ar (matrix_product es1 es2).
Proof.
  intros H1 H2. matrix_elements H1. matrix_elements H2.
  unfold Matrix.multiplied, Matrix.toArray, Matrix.setFromMatrixArray,
    Matrix.new.
  js_run.
  eexists l2, l0, _. split; [reflexivity|]. do 2 (split; [done|]).
  split.
  - heap_kept.
  - split; [heap_lookup|]. split; [|done]. heap_reduce.
    unfold matrix_product, entry. simpl. repeat f_equal.
Qed.
End product.

Lemma matrix_product_assoc (a b c : list R) :
  length a = 16%nat → length b = 16%nat → length c = 16%nat →
  matrix_product (matrix_product a b) c
  = matrix_product a (matrix_product b c).
Proof.
  intros Ha Hb Hc. sixteen a Ha. sixteen b Hb. sixteen c Hc.
  unfold matrix_product, entry. simpl.
  repeat (apply (f_equal2 cons); [ring|]). reflexivity.
Qed.

Lemma matrix_product_affine (ea eb : list R) :
  length ea = 16%nat → length eb = 16%nat → affine ea → affine eb →
  affine (matrix_product ea eb) ∧
  ∀ row, (row < 3)%nat →
    entry (matrix_product ea eb) row 3
    = entry ea row 0 * entry eb 0 3 + entry ea row 1 * entry eb 1 3
      + entry ea row 2 * entry eb 2 3 + entry ea row 3.
Proof.
  intros Hla Hlb Ha Hb. sixteen ea Hla. sixteen eb Hlb.
  unfold affine, entry in *. simpl in *.
  destruct Ha as (?&?&?&?). destruct Hb as (?&?&?&?). subst.
  split; [repeat split; unfold matrix_product, entry; simpl; ring|].
  intros row Hrow.
  do 3 (destruct row as [|row];
        [unfold matrix_product, entry; simpl; ring|]).
  lia.
Qed.

Lemma sample_affine : affine sample_elements.
Proof. unfold affine, entry. by simpl. Qed.

(** X8. [multiplied] returns a new instance on a new array whose sixteen
    elements are the 4x4 matrix product (receiver on the left, column-major
    storage) of the two operands, which are left as they were. *)
Theorem multiplied_is_matrix_product (h : heap) (this m a1 a2 : loc)
    (es1 es2 : list R) :
  is_matrix h this a1 es1 → is_matrix h m a2 es2 →
  ∃ r ar h',
    Matrix.multiplied this m h = Some (Normal r, h') ∧
    h !! r = None ∧ h !! ar = None ∧
    is_matrix h' r ar (matrix_product es1 es2) ∧
    is_matrix h' this a1 es1 ∧ is_matrix h' m a2 es2.
Proof.
  intros H1 H2. rewrite run_last.
  destruct (run_multiplied mret h this m a1 a2 es1 es2 H1 H2)
    as (r & ar & h' & -> & ? & ? & ? & ?).
  exists r, ar, h'. rewrite run_ret.
  repeat split; try done; by eapply is_matrix_kept.
Qed.

Lemma multiplied_is_matrix_product_witness :
  ∃ r ar h',
    Matrix.multiplied 1 3 two_instances = Some (Normal r, h') ∧
    two_instances !! r = None ∧ two_instances !! ar = None ∧
    is_matrix h' r ar (matrix_product sample_elements sample_elements) ∧
    is_matrix h' 1 0 sample_elements ∧ is_matrix h' 3 2 sample_elements.
Proof.
  exact (multiplied_is_matrix_product two_instances 1 3 0 2
           sample_elements sample_elements
           two_instances_first two_instances_second).
Defined.

(** X9. [multiply], and [transform] which is the same call, return nothing
    and replace the receiver's array by a new array holding the product
    receiver * argument; every other object of the heap, the old array
    included, is kept. *)
Theorem multiply_replaces_elements (h : heap) (this m a1 a2 : loc)
    (es1 es2 : list R) :
  is_matrix h this a1 es1 → is_matrix h m a2 es2 →
  ∃ c h',
    Matrix.multiply this m h = Some (Normal (), h') ∧
    Matrix.transform this m h = Some (Normal (), h') ∧
    h !! c = None ∧
    is_matrix h' this c (matrix_product es1 es2) ∧
    (∀ l o, l ≠ this → h !! l = Some o → h' !! l = Some o).
Proof.
  intros H1 H2. unfold Matrix.transform.
  assert (∃ c h', Matrix.multiply this m h = Some (Normal (), h') ∧
            h !! c = None ∧ is_matrix h' this c (matrix_product es1 es2) ∧
            ∀ l o, l ≠ this → h !! l = Some o → h' !! l = Some o)
    as (c & h' & ? & ? & ? & ?); [|by exists c, h'].
  rewrite run_last. unfold Matrix.multiply. rewrite run_bind_assoc.
  match goal with |- context [ (Matrix.multiplied this m ≫= ?k') h ] =>
    destruct (run_multiplied k' h this m a1 a2 es1 es2 H1 H2)
      as (r & ar & h1 & -> & Hr & Har & Hsub & Hp)
  end.
  pose proof Hp as (Hr1 & Har1 & Hlen).
  pose proof (is_matrix_kept _ _ _ _ _ H1 Hsub) as (Hthis & _ & _).
  unfold Matrix.getElements, Matrix.setFromMatrixArray. js_run.
  rewrite run_ret. exists l. eexists. split; [reflexivity|].
  assert (h !! l = None).
  { destruct (h !! l) eqn:E; [|done].
    eapply lookup_weaken in E; [|exact Hsub]. congruence. }
  split; [done|]. assert (l ≠ this) by congruence.
  split; [split; [heap_lookup|split; [heap_lookup|done]]|].
  intros l' o Hl' E. rewrite lookup_insert_ne by done.
  assert (l' ≠ l) by congruence.
  rewrite lookup_insert_ne by done. by eapply lookup_weaken.
Qed.

Lemma multiply_replaces_elements_witness :
  ∃ c h',
    Matrix.multiply 1 3 two_instances = Some (Normal (), h') ∧
    Matrix.transform 1 3 two_instances = Some (Normal (), h') ∧
    two_instances !! c = None ∧
    is_matrix h' 1 c (matrix_product sample_elements sample_elements) ∧
    (∀ l o, l ≠ 1%nat → two_instances !! l = Some o → h' !! l = Some o).
Proof.
  exact (multiply_replaces_elements two_instances 1 3 0 2
           sample_elements sample_elements
           two_instances_first two_instances_second).
Defined.

(** X10. [multiplied] is associative: (a * b) * c and a * (b * c) are
    instances with the same sixteen elements. *)
Theorem multiplied_associative (h : heap) (ma mb mc a1 a2 a3 : loc)
    (es1 es2 es3 : list R) :
  is_matrix h ma a1 es1 → is_matrix h mb a2 es2 → is_matrix h mc a3 es3 →
  ∃ es,
    (∃ r ar h',
       (ab ← Matrix.multiplied ma mb; Matrix.multiplied ab mc) h
       = Some (Normal r, h') ∧ is_matrix h' r ar es) ∧
    (∃ r ar h',
       (bc ← Matrix.multiplied mb mc; Matrix.multiplied ma bc) h
       = Some (Normal r, h') ∧ is_matrix h' r ar es).
Proof.
  intros H1 H2 H3.
  exists (matrix_product (matrix_product es1 es2) es3). split.
  - rewrite run_last, run_bind_assoc.
    match goal with |- context [ (Matrix.multiplied ma mb ≫= ?k') h ] =>
      destruct (run_multiplied k' h ma mb a1 a2 es1 es2 H1 H2)
        as (ab & aab & h1 & -> & ? & ? & Hsub & Hab)
    end.
    destruct (run_multiplied mret h1 ab mc aab a3 _ es3 Hab)
      as (r & ar & h' & -> & ? & ? & ? & ?); [by eapply is_matrix_kept|].
    exists r, ar, h'. by rewrite run_ret.
  - rewrite run_last, run_bind_assoc.
    match goal with |- context [ (Matrix.multiplied mb mc ≫= ?k') h ] =>
      destruct (run_multiplied k' h mb mc a2 a3 es2 es3 H2 H3)
        as (bc & abc & h1 & -> & ? & ? & Hsub & Hbc)
    end.
    destruct (run_multiplied mret h1 ma bc a1 abc es1
                (matrix_product es2 es3))
      as (r & ar & h' & -> & ? & ? & ? & ?); [by eapply is_matrix_kept|done|].
    exists r, ar, h'. rewrite run_ret. split; [done|].
    rewrite matrix_product_assoc; eauto using is_matrix_length.
Qed.

Lemma multiplied_associative_witness :
  ∃ es,
    (∃ r ar h',
       (ab ← Matrix.multiplied 1 3; Matrix.multiplied ab 1) two_instances
       = Some (Normal r, h') ∧ is_matrix h' r ar es) ∧
    (∃ r ar h',
       (bc ← Matrix.multiplied 3 1; Matrix.multiplied 1 bc) two_instances
       = Some (Normal r, h') ∧ is_matrix h' r ar es).
Proof.
  exact (multiplied_associative two_instances 1 3 1 0 2 0
           sample_elements sample_elements sample_elements
           two_instances_first two_instances_second two_instances_first).
Defined.

(** X11. The product of two matrices whose bottom row is (0, 0, 0, 1) has
    bottom row (0, 0, 0, 1), and its translation column is the receiver's
    3x3 block applied to the argument's translation plus the receiver's
    translation. *)
Theorem multiplied_affine (h : heap) (this m a1 a2 : loc) (es1 es2 : list R) :
  is_matrix h this a1 es1 → is_matrix h m a2 es2 →
  affine es1 → affine es2 →
  ∃ r ar es h',
    Matrix.multiplied this m h = Some (Normal r, h') ∧
    is_matrix h' r ar es ∧ affine es ∧
    ∀ row, (row < 3)%nat →
      entry es row 3
      = entry es1 row 0 * entry es2 0 3 + entry es1 row 1 * entry es2 1 3
        + entry es1 row 2 * entry es2 2 3 + entry es1 row 3.
Proof.
  intros H1 H2 Ha1 Ha2. rewrite run_last.
  destruct (run_multiplied mret h this m a1 a2 es1 es2 H1 H2)
    as (r & ar & h' & -> & _ & _ & _ & Hp).
  rewrite run_ret. exists r, ar, (matrix_product es1 es2), h'.
  split; [done|]. split; [done|].
  apply matrix_product_affine; try done; eauto using is_matrix_length.
Qed.

Lemma multiplied_affine_witness :
  ∃ r ar es h',
    Matrix.multiplied 1 3 two_instances = Some (Normal r, h') ∧
    is_matrix h' r ar es ∧ affine es ∧
    ∀ row, (row < 3)%nat →
      entry es row 3
      = entry sample_elements row 0 * entry sample_elements 0 3
        + entry sample_elements row 1 * entry sample_elements 1 3
        + entry sample_elements row 2 * entry sample_elements 2 3
        + entry sample_elements row 3.
Proof.
  exact (multiplied_affine two_instances 1 3 0 2
           sample_elements sample_elements
           two_instances_first two_instances_second
           sample_affine sample_affine).
Defined.

(** ** Quaternions and rotation blocks *)

Ltac block_equations H :=
  unfold same_block, block_indices in H; decompose_Forall_hyps;
  simplify_eq/=.

Ltac plain_decimals :=
  try replace 0.5 with (/ 2) by lra;
  try replace 0.25 with (/ 4) by lra;
  try replace 2.0 with 2 by lra;
  try replace 1.0 with 1 by lra.

Ltac plain_decimals_everywhere :=
  try replace 0.5 with (/ 2) in * by lra;
  try replace 0.25 with (/ 4) in * by lra;
  try replace 2.0 with 2 in * by lra;
  try replace 1.0 with 1 in * by lra.

(** Two runs that differ by the numbers of one array: the numbers are
    equal, by [tac]. *)
Ltac same_numbers tac :=
  simpl fmap;
  match goal with
  | |- ?k ?l (<[?l := ArrayObj ?xs]> ?h) = ?k ?l (<[?l := ArrayObj ?ys]> ?h) =>
      replace xs with ys; [reflexivity|];
      repeat (apply (f_equal2 cons); [f_equal; tac|]); reflexivity
  end.

Ltac rotation_facts H :=
  unfold rotation_block, dot, det3, entry in H; simpl in H;
  destruct H as (?&?&?&?&?&?&?).

Lemma sqrt_pos_sq D : 0 < D → 0 < sqrt D ∧ sqrt D * sqrt D = D.
Proof. intros H. split; [by apply sqrt_lt_R0|apply sqrt_sqrt; lra]. Qed.

(** In a branch of [toQuaternion] whose square root is of [D]: the four
    numbers returned are a unit quaternion with the block of the matrix. *)
Ltac quaternion_of_rotation D :=
  let d := fresh "d" in
  let Hd := fresh "Hd" in
  let Hdd := fresh "Hdd" in
  destruct (sqrt_pos_sq D) as [Hd Hdd]; [lra|];
  set (d := sqrt D) in *;
  eexists _, _, _, _, _; split; [|split; [|split; [|reflexivity]]];
  [ unfold unit_quaternion; field_simplify_eq; [cbn [pow]; nsatz|lra]
  | unfold same_block, block_indices, quaternion_elements;
    repeat (apply Forall_cons_2;
            [simpl; f_equal; field_simplify_eq; [cbn [pow]; nsatz|lra]|]);
    apply Forall_nil_2
  | done ].

Lemma same_block_sym es es' : same_block es es' → same_block es' es.
Proof.
  unfold same_block. rewrite !Forall_forall. intros H i Hi. by rewrite H.
Qed.

Lemma same_block_trans es1 es2 es3 :
  same_block es1 es2 → same_block es2 es3 → same_block es1 es3.
Proof.
  unfold same_block. rewrite !Forall_forall. intros H1 H2 i Hi.
  by rewrite H1, H2.
Qed.

Lemma same_block_rotation es es' :
  length es = 16%nat → length es' = 16%nat →
  same_block es es' → rotation_block es' → rotation_block es.
Proof.
  intros Hlen Hlen' Hb. sixteen es Hlen. sixteen es' Hlen'.
  block_equations Hb. done.
Qed.

Lemma quaternion_elements_rotation x y z w :
  unit_quaternion x y z w → rotation_block (quaternion_elements x y z w).
Proof.
  unfold unit_quaternion, rotation_block, dot, det3, entry. simpl.
  intros Hu. repeat split; nsatz.
Qed.

(** The rotation block of a product of quaternions is the product of the
    rotation blocks. *)
Lemma quaternion_product_block ea eb ax ay az aw bx by' bz bw :
  length ea = 16%nat → length eb = 16%nat →
  unit_quaternion ax ay az aw → unit_quaternion bx by' bz bw →
  same_block (quaternion_elements ax ay az aw) ea →
  same_block (quaternion_elements bx by' bz bw) eb →
  affine eb →
  same_block
    (quaternion_elements
       (ax * bw + aw * bx + ay * bz - az * by')
       (ay * bw + aw * by' + az * bx - ax * bz)
       (az * bw + aw * bz + ax * by' - ay * bx)
       (aw * bw - ax * bx - ay * by' - az * bz))
    (matrix_product ea eb).
Proof.
  intros Hla Hlb Hua Hub Ha Hb Haff. sixteen ea Hla. sixteen eb Hlb.
  block_equations Ha. block_equations Hb.
  unfold affine, entry in Haff. simpl in Haff. destruct Haff as (?&?&?&?).
  subst. unfold unit_quaternion in *.
  unfold same_block, block_indices, quaternion_elements, matrix_product,
    entry.
  repeat (apply Forall_cons_2; [simpl; f_equal; nsatz|]).
  apply Forall_nil_2.
Qed.

Lemma quarter_turn_is_matrix :
  is_matrix quarter_turn_heap 1 0 quarter_turn_elements.
Proof. repeat split. Qed.

Lemma quarter_turn_rotation : rotation_block quarter_turn_elements.
Proof.
  unfold rotation_block, dot, det3, entry. simpl. repeat split; lra.
Qed.

Lemma sample_unit_quaternion : unit_quaternion 0.6 0 0 0.8.
Proof. unfold unit_quaternion. lra. Qed.

Section quaternion.
Context {B : Type}.
Implicit Types (h : heap) (m a : loc) (es : list R).

Lemma run_setRotationFromQuaternion_block (k : loc → JS B) h m a es x y z w :
  is_matrix h m a es →
  ∃ es',
    length es' = 16%nat ∧
    same_block es' (quaternion_elements x y z w) ∧
    (∀ i, i ∉ block_indices → es' !! i = es !! i) ∧
    (Matrix.setRotationFromQuaternion m x y z w ≫= k) h
    = k m (<[a := ArrayObj (Some <$> es')]> h).
Proof.
  intros H. matrix_elements H. unfold Matrix.setRotationFromQuaternion.
  js_run.
  eexists [_;_;_;_;_;_;_;_;_;_;_;_;_;_;_;_]. split; [reflexivity|].
  split; [|split; [|reflexivity]].
  - unfold same_block, block_indices, quaternion_elements.
    repeat (apply Forall_cons_2; [simpl; f_equal; ring|]).
    apply Forall_nil_2.
  - intros i Hi.
    do 16 (destruct i as [|i];
           [try done; exfalso; apply Hi; unfold block_indices; set_solver|]).
    done.
Qed.

Lemma run_toQuaternion_unit (k : loc → JS B) h m a es x y z w :
  is_matrix h m a es → same_block es (quaternion_elements x y z w) →
  unit_quaternion x y z w →
  ∃ r s,
    (s = 1 ∨ s = -1) ∧ h !! r = None ∧
    (Matrix.toQuaternion m ≫= k) h
    = k r (<[r := ArrayObj (Some <$> [s * x; s * y; s * z; s * w])]> h).
Proof.
  intros H Hb Hu. matrix_elements H. block_equations Hb.
  unfold unit_quaternion in Hu.
  unfold Matrix.toQuaternion. js_run.
  - (* the trace is positive: w is the largest *)
    assert (w ≠ 0) by (intros ->; nra).
    assert (1 - 2 * (y * y + z * z) + (1 - 2 * (x * x + z * z))
            + (1 - 2 * (x * x + y * y)) + 1.0 = (2 * w) * (2 * w)) as ->
      by nra.
    destruct (Rlt_dec 0 w).
    + exists l, 1. split; [by left|]. split; [done|].
      rewrite sqrt_square by lra.
      same_numbers ltac:(plain_decimals; field; lra).
    + exists l, (-1). split; [by right|]. split; [done|].
      replace (2 * w * (2 * w)) with ((- (2 * w)) * (- (2 * w))) by ring.
      rewrite sqrt_square by lra.
      same_numbers ltac:(plain_decimals; field; lra).
  - (* x is the largest *)
    assert (x ≠ 0) by (intros ->; nra).
    assert (1.0 + (1 - 2 * (y * y + z * z)) - (1 - 2 * (x * x + z * z))
            - (1 - 2 * (x * x + y * y)) = (2 * x) * (2 * x)) as ->
      by nra.
    destruct (Rlt_dec 0 x).
    + exists l, 1. split; [by left|]. split; [done|].
      rewrite sqrt_square by lra.
      same_numbers ltac:(plain_decimals; field; lra).
    + exists l, (-1). split; [by right|]. split; [done|].
      replace (2 * x * (2 * x)) with ((- (2 * x)) * (- (2 * x))) by ring.
      rewrite sqrt_square by lra.
      same_numbers ltac:(plain_decimals; field; lra).
  - (* y is the largest *)
    assert (y ≠ 0) by (intros ->; nra).
    assert (1.0 + (1 - 2 * (x * x + z * z)) - (1 - 2 * (y * y + z * z))
            - (1 - 2 * (x * x + y * y)) = (2 * y) * (2 * y)) as ->
      by nra.
    destruct (Rlt_dec 0 y).
    + exists l, 1. split; [by left|]. split; [done|].
      rewrite sqrt_square by lra.
      same_numbers ltac:(plain_decimals; field; lra).
    + exists l, (-1). split; [by right|]. split; [done|].
      replace (2 * y * (2 * y)) with ((- (2 * y)) * (- (2 * y))) by ring.
      rewrite sqrt_square by lra.
      same_numbers ltac:(plain_decimals; field; lra).
  - (* z is the largest *)
    assert (z ≠ 0).
    { intros ->.
      assert (x * x <= 0) by (destruct (Rle_dec (x * x) (y * y)); nra).
      nra. }
    assert (1.0 + (1 - 2 * (x * x + y * y)) - (1 - 2 * (y * y + z * z))
            - (1 - 2 * (x * x + z * z)) = (2 * z) * (2 * z)) as ->
      by nra.
    destruct (Rlt_dec 0 z).
    + exists l, 1. split; [by left|]. split; [done|].
      rewrite sqrt_square by lra.
      same_numbers ltac:(plain_decimals; field; lra).
    + exists l, (-1). split; [by right|]. split; [done|].
      replace (2 * z * (2 * z)) with ((- (2 * z)) * (- (2 * z))) by ring.
      rewrite sqrt_square by lra.
      same_numbers ltac:(plain_decimals; field; lra).
Qed.

Lemma run_toQuaternion_rotation (k : loc → JS B) h m a es :
  is_matrix h m a es → rotation_block es →
  ∃ r qx qy qz qw,
    unit_quaternion qx qy qz qw ∧
    same_block (quaternion_elements qx qy qz qw) es ∧
    h !! r = None ∧
    (Matrix.toQuaternion m ≫= k) h
    = k r (<[r := ArrayObj (Some <$> [qx; qy; qz; qw])]> h).
Proof.
  intros H Hrot. matrix_elements H. rotation_facts Hrot.
  unfold Matrix.toQuaternion. js_run.
  all: plain_decimals_everywhere.
  - match goal with |- context [ sqrt ?D ] => quaternion_of_rotation D end.
  - match goal with |- context [ sqrt ?D ] => quaternion_of_rotation D end.
  - match goal with |- context [ sqrt ?D ] => quaternion_of_rotation D end.
  - match goal with |- context [ sqrt ?D ] => quaternion_of_rotation D end.
Qed.

Lemma run_clone (k : loc → JS B) h m a es :
  is_matrix h m a es →
  ∃ c ac h',
    (Matrix.clone m ≫= k) h = k c h' ∧
    h !! c = None ∧ h !! ac = None ∧ h ⊆ h' ∧ is_matrix h' c ac es.
Proof.
  intros (Hm & Ha & Hlen).
  unfold Matrix.clone, Matrix.toArray, Matrix.setFromMatrixArray,
    Matrix.new. js_run.
  eexists l0, l1, _. split; [reflexivity|]. do 2 (split; [done|]).
  split; [heap_kept|]. repeat split; [heap_lookup..|done].
Qed.

Lemma run_applyQuaternion_rotation (k : loc → JS B) h m a es eb bx by' bz bw :
  is_matrix h m a es → rotation_block es →
  unit_quaternion bx by' bz bw →
  length eb = 16%nat → same_block (quaternion_elements bx by' bz bw) eb →
  affine eb →
  ∃ r ar es' h',
    (Matrix.applyQuaternion m bx by' bz bw ≫= k) h = k r h' ∧
    h !! r = None ∧ h !! ar = None ∧ h ⊆ h' ∧
    is_matrix h' r ar es' ∧
    same_block es' (matrix_product es eb) ∧
    (∀ i, i ∉ block_indices → es' !! i = identity_elements !! i).
Proof.
  intros H Hrot Hub Hlenb Hbb Haff. unfold Matrix.applyQuaternion.
  rewrite run_bind_assoc.
  match goal with |- context [ (Matrix.toQuaternion m ≫= ?k') ?hh ] =>
    destruct (run_toQuaternion_rotation k' hh m a es H Hrot)
      as (q & ax & ay & az & aw & Hua & Hba & Hq & ->)
  end.
  js_run.
  match goal with |- context [ (Matrix.new ≫= ?k') ?hh ] =>
    destruct (run_new k' hh) as (ar & r & Har & Hr & Hne & ->)
  end.
  apply lookup_insert_None in Har as [Har ?].
  apply lookup_insert_None in Hr as [Hr ?].
  match goal with
  | |- context [ (Matrix.setRotationFromQuaternion r ?x' ?y' ?z' ?w'
                  ≫= ?k') ?hh ] =>
      destruct (run_setRotationFromQuaternion_block k' hh r ar
                  identity_elements x' y' z' w')
        as (es' & Hlen & Hb' & Hrest & ->); [repeat split; heap_lookup|]
  end.
  eexists r, ar, es', _. split; [reflexivity|].
  do 2 (split; [done|]). split; [heap_kept|].
  split; [repeat split; [heap_lookup..|done]|]. split; [|done].
  eapply same_block_trans; [exact Hb'|].
  destruct H as (_ & _ & ?). by apply quaternion_product_block.
Qed.
End quaternion.

(** X12. [setRotationFromQuaternion] returns the receiver and writes the
    nine entries of the 3x3 block with the rotation matrix of (x, y, z, w);
    the seven other elements and every other object of the heap are as
    before; for a unit quaternion the block is orthonormal with
    determinant 1. *)
Theorem setRotationFromQuaternion_block (h : heap) (m a : loc) (es : list R)
    (x y z w : R) :
  is_matrix h m a es →
  ∃ es' h',
    Matrix.setRotationFromQuaternion m x y z w h = Some (Normal m, h') ∧
    is_matrix h' m a es' ∧
    same_block es' (quaternion_elements x y z w) ∧
    (∀ i, i ∉ block_indices → es' !! i = es !! i) ∧
    keeps_heap_except a h h' ∧
    (unit_quaternion x y z w → rotation_block es').
Proof.
  intros H. rewrite run_last.
  destruct (run_setRotationFromQuaternion_block mret h m a es x y z w H)
    as (es' & Hlen & Hb & Hkeep & ->).
  rewrite run_ret. destruct H as (Hm & Ha & ?).
  assert (m ≠ a) by congruence.
  eexists es', _. split; [reflexivity|].
  split; [repeat split; [heap_lookup..|done]|].
  do 2 (split; [done|]). split.
  - intros l ?. by rewrite lookup_insert_ne.
  - intros Hu. eapply same_block_rotation; [done| |done|].
    + done.
    + by apply quaternion_elements_rotation.
Qed.

Lemma setRotationFromQuaternion_block_witness :
  ∃ es' h',
    Matrix.setRotationFromQuaternion 1 0.6 0 0 0.8 sample_heap
    = Some (Normal 1%nat, h') ∧
    is_matrix h' 1 0 es' ∧
    same_block es' (quaternion_elements 0.6 0 0 0.8) ∧
    (∀ i, i ∉ block_indices → es' !! i = sample_elements !! i) ∧
    keeps_heap_except 0 sample_heap h' ∧
    (unit_quaternion 0.6 0 0 0.8 → rotation_block es').
Proof.
  exact (setRotationFromQuaternion_block sample_heap 1 0 sample_elements
           0.6 0 0 0.8 sample_is_matrix).
Defined.

(** X13. A unit quaternion written into a fresh matrix with
    [setRotationFromQuaternion] is read back by [toQuaternion] up to its
    sign (q and -q are the same rotation). *)
Theorem quaternion_round_trip (h : heap) (x y z w : R) :
  unit_quaternion x y z w →
  ∃ r h' s,
    (m ← Matrix.new;
     Matrix.setRotationFromQuaternion m x y z w;;
     Matrix.toQuaternion m) h = Some (Normal r, h') ∧
    (s = 1 ∨ s = -1) ∧
    h' !! r = Some (ArrayObj (Some <$> [s * x; s * y; s * z; s * w])).
Proof.
  intros Hu. rewrite run_last, run_bind_assoc.
  match goal with |- context [ (Matrix.new ≫= ?k') ?hh ] =>
    destruct (run_new k' hh) as (a & m & Ha & Hm & Hne & ->)
  end.
  rewrite run_bind_assoc.
  match goal with
  | |- context [ (Matrix.setRotationFromQuaternion m x y z w ≫= ?k') ?hh ] =>
      destruct (run_setRotationFromQuaternion_block k' hh m a
                  [1; 0; 0; 0; 0; 1; 0; 0; 0; 0; 1; 0; 0; 0; 0; 1] x y z w)
        as (es' & Hlen & Hb & _ & ->); [repeat split; heap_lookup|]
  end.
  cbv beta.
  match goal with |- context [ (Matrix.toQuaternion m ≫= ?k') ?hh ] =>
    destruct (run_toQuaternion_unit k' hh m a es' x y z w)
      as (r & s & Hs & Hr & ->); [repeat split; [heap_lookup..|done]|done..|]
  end.
  rewrite run_ret. eexists r, _, s. split; [reflexivity|].
  split; [done|]. by rewrite lookup_insert_eq.
Qed.

Lemma quaternion_round_trip_witness :
  ∃ r h' s,
    (m ← Matrix.new;
     Matrix.setRotationFromQuaternion m 0.6 0 0 0.8;;
     Matrix.toQuaternion m) ∅ = Some (Normal r, h') ∧
    (s = 1 ∨ s = -1) ∧
    h' !! r = Some (ArrayObj (Some <$> [s * 0.6; s * 0; s * 0; s * 0.8])).
Proof.
  exact (quaternion_round_trip ∅ 0.6 0 0 0.8 sample_unit_quaternion).
Defined.

(** X14. For a matrix whose 3x3 block is a rotation (orthonormal columns,
    determinant 1), whichever of its four branches [toQuaternion] takes it
    returns a unit quaternion, and [setRotationFromQuaternion] of that
    quaternion on a fresh matrix rebuilds the nine entries of the block. *)
Theorem matrix_quaternion_round_trip (h : heap) (m a : loc) (es : list R) :
  is_matrix h m a es → rotation_block es →
  (∃ q qx qy qz qw h',
     Matrix.toQuaternion m h = Some (Normal q, h') ∧
     h' !! q = Some (ArrayObj (Some <$> [qx; qy; qz; qw])) ∧
     unit_quaternion qx qy qz qw) ∧
  (∃ r ar es' h',
     (q ← Matrix.toQuaternion m;
      qx ← array_get q 0; qy ← array_get q 1;
      qz ← array_get q 2; qw ← array_get q 3;
      fresh ← Matrix.new;
      Matrix.setRotationFromQuaternion fresh qx qy qz qw) h
     = Some (Normal r, h') ∧
     h !! r = None ∧ is_matrix h' r ar es' ∧ same_block es' es).
Proof.
  intros H Hrot. split.
  - rewrite run_last.
    destruct (run_toQuaternion_rotation mret h m a es H Hrot)
      as (q & qx & qy & qz & qw & Hu & Hb & Hq & ->).
    rewrite run_ret. eexists q, qx, qy, qz, qw, _.
    split; [reflexivity|]. split; [by rewrite lookup_insert_eq|done].
  - rewrite run_last, run_bind_assoc.
    match goal with |- context [ (Matrix.toQuaternion m ≫= ?k') ?hh ] =>
      destruct (run_toQuaternion_rotation k' hh m a es H Hrot)
        as (q & qx & qy & qz & qw & Hu & Hb & Hq & ->)
    end.
    js_run.
    match goal with |- context [ (Matrix.new ≫= ?k') ?hh ] =>
      destruct (run_new k' hh) as (ar & r & Har & Hr & Hne & ->)
    end.
    apply lookup_insert_None in Hr as [Hr ?].
    match goal with
    | |- context [ (Matrix.setRotationFromQuaternion r ?x' ?y' ?z' ?w'
                    ≫= ?k') ?hh ] =>
        destruct (run_setRotationFromQuaternion_block k' hh r ar
                    identity_elements x' y' z' w')
          as (es' & Hlen & Hb' & _ & ->); [repeat split; heap_lookup|]
    end.
    rewrite run_ret. eexists r, ar, es', _. split; [reflexivity|].
    split; [done|]. split; [repeat split; [heap_lookup..|done]|].
    by eapply same_block_trans.
Qed.

Lemma matrix_quaternion_round_trip_witness :
  (∃ q qx qy qz qw h',
     Matrix.toQuaternion 1 quarter_turn_heap = Some (Normal q, h') ∧
     h' !! q = Some (ArrayObj (Some <$> [qx; qy; qz; qw])) ∧
     unit_quaternion qx qy qz qw) ∧
  (∃ r ar es' h',
     (q ← Matrix.toQuaternion 1;
      qx ← array_get q 0; qy ← array_get q 1;
      qz ← array_get q 2; qw ← array_get q 3;
      fresh ← Matrix.new;
      Matrix.setRotationFromQuaternion fresh qx qy qz qw) quarter_turn_heap
     = Some (Normal r, h') ∧
     quarter_turn_heap !! r = None ∧ is_matrix h' r ar es' ∧
     same_block es' quarter_turn_elements).
Proof.
  exact (matrix_quaternion_round_trip quarter_turn_heap 1 0
           quarter_turn_elements quarter_turn_is_matrix
           quarter_turn_rotation).
Defined.

(** X15. On a matrix whose 3x3 block is a rotation, and for a unit
    quaternion, the 3x3 block of the result of [applyQuaternion] is that of
    the matrix product of the receiver (on the left) with the fresh matrix
    that [setRotationFromQuaternion] builds from the quaternion. *)
Theorem applyQuaternion_multiplies (h : heap) (m a : loc) (es : list R)
    (x y z w : R) :
  is_matrix h m a es → rotation_block es → unit_quaternion x y z w →
  ∃ es1 es2,
    same_block es1 es2 ∧
    (∃ r ar h',
       Matrix.applyQuaternion m x y z w h = Some (Normal r, h') ∧
       is_matrix h' r ar es1) ∧
    (∃ r ar h',
       (fresh ← Matrix.new;
        other ← Matrix.setRotationFromQuaternion fresh x y z w;
        Matrix.multiplied m other) h = Some (Normal r, h') ∧
       is_matrix h' r ar es2).
Proof.
  intros H Hrot Hu.
  (* the other matrix *)
  assert (∃ mb ab eb hb,
            (fresh ← Matrix.new;
             Matrix.setRotationFromQuaternion fresh x y z w) h
            = Some (Normal mb, hb) ∧
            h ⊆ hb ∧ is_matrix hb mb ab eb ∧
            same_block (quaternion_elements x y z w) eb ∧ affine eb)
    as (mb & ab & eb & hb & Hrunb & Hsub & Hmb & Hbb & Haff).
  { rewrite run_last, run_bind_assoc.
    match goal with |- context [ (Matrix.new ≫= ?k') ?hh ] =>
      destruct (run_new k' hh) as (ab & mb & Hab & Hmb & Hne & ->)
    end.
    match goal with
    | |- context [ (Matrix.setRotationFromQuaternion mb x y z w
                    ≫= ?k') ?hh ] =>
        destruct (run_setRotationFromQuaternion_block k' hh mb ab
                    identity_elements x y z w)
          as (eb & Hlenb & Hbb & Hrest & ->); [repeat split; heap_lookup|]
    end.
    rewrite run_ret. eexists mb, ab, eb, _. split; [reflexivity|].
    split; [heap_kept|]. split; [repeat split; [heap_lookup..|done]|].
    split; [by apply same_block_sym|].
    unfold affine, entry. rewrite !Hrest; [done|..];
      apply (bool_decide_unpack _); by vm_compute. }
  pose proof Hmb as (_ & _ & Hlenb).
  destruct (run_applyQuaternion_rotation mret h m a es eb x y z w)
    as (r1 & ar1 & es1 & h1 & Hrun1 & _ & _ & _ & Hm1 & Hb1 & _); [done..|].
  destruct (run_multiplied mret hb m mb a ab es eb)
    as (r2 & ar2 & h2 & Hrun2 & _ & _ & _ & Hm2);
    [by eapply is_matrix_kept|done|].
  exists es1, (matrix_product es eb). split; [done|]. split.
  - exists r1, ar1, h1. by rewrite run_last, Hrun1, run_ret.
  - exists r2, ar2, h2. split; [|done].
    rewrite <- (run_bind_assoc Matrix.new
                  (λ fresh, Matrix.setRotationFromQuaternion fresh x y z w)).
    rewrite (run_bind _ _ _ _ _ Hrunb).
    by rewrite run_last, Hrun2, run_ret.
Qed.

Lemma applyQuaternion_multiplies_witness :
  ∃ es1 es2,
    same_block es1 es2 ∧
    (∃ r ar h',
       Matrix.applyQuaternion 1 0.6 0 0 0.8 quarter_turn_heap
       = Some (Normal r, h') ∧
       is_matrix h' r ar es1) ∧
    (∃ r ar h',
       (fresh ← Matrix.new;
        other ← Matrix.setRotationFromQuaternion fresh 0.6 0 0 0.8;
        Matrix.multiplied 1 other) quarter_turn_heap
       = Some (Normal r, h') ∧
       is_matrix h' r ar es2).
Proof.
  exact (applyQuaternion_multiplies quarter_turn_heap 1 0
           quarter_turn_elements 0.6 0 0 0.8 quarter_turn_is_matrix
           quarter_turn_rotation sample_unit_quaternion).
Defined.

(** ** Euler angles *)

Ltac pythagoras a :=
  let H := fresh "Hpyth" in
  pose proof (sin2_cos2 a) as H; unfold Rsqr in H;
  generalize dependent (sin a); generalize dependent (cos a); intros.

Lemma clear_of_cut_principal deg : clear_of_cut deg → principal deg.
Proof. unfold clear_of_cut, principal. lra. Qed.

Lemma ZYX_supported :
  default "XYZ"%string (Some "ZYX"%string) ∈ supported_orders.
Proof. apply (bool_decide_unpack _). by vm_compute. Qed.

Lemma radians_plus a b : radians (a + b) = radians a + radians b.
Proof. unfold radians. ring. Qed.

Lemma sin_radians_90 : sin (radians 90) = 1.
Proof. rewrite radians_90. apply sin_PI2. Qed.

Lemma cos_radians_90 : cos (radians 90) = 0.
Proof. rewrite radians_90. apply cos_PI2. Qed.

Lemma sin_radians_0 : sin (radians 0) = 0.
Proof. rewrite radians_0. apply sin_0. Qed.

Lemma degrees_asin_1 v : v = 1 → degrees (asin v) = 90.
Proof.
  intros ->. rewrite asin_1, <- radians_90. apply degrees_radians.
Qed.

Lemma at_gimbal v : v = 1 ∨ v = -1 → ¬ JSMath.abs v < 0.9999999.
Proof.
  unfold JSMath.abs, Rabs. intros [->| ->]; destruct (Rcase_abs _); lra.
Qed.

Lemma atan_nonpos v : v <= 0 → atan v <= 0.
Proof.
  intros [H| ->]; [|rewrite atan_0; lra].
  rewrite <- atan_0. by apply Rlt_le, atan_increasing.
Qed.

Lemma atan_pos v : 0 < v → 0 < atan v.
Proof. intros H. rewrite <- atan_0. by apply atan_increasing. Qed.

Lemma atan2_range y x : - PI < JSMath.atan2 y x <= PI.
Proof.
  pose proof PI_RGT_0. unfold JSMath.atan2. repeat case_decide; try lra.
  - pose proof (atan_bound (y / x)). lra.
  - pose proof (atan_bound (y / x)).
    assert (atan (y / x) <= 0); [|lra].
    apply atan_nonpos. unfold Rdiv.
    assert (/ x < 0) by by apply Rinv_lt_0_compat. nra.
  - pose proof (atan_bound (y / x)).
    assert (0 < atan (y / x)); [|lra].
    apply atan_pos. unfold Rdiv.
    assert (/ x < 0) by by apply Rinv_lt_0_compat. nra.
Qed.

Lemma degrees_range v : - PI <= v <= PI → in_half_turn (degrees v).
Proof.
  intros [Hlo Hhi].
  apply degrees_le in Hlo, Hhi.
  replace (degrees (- PI)) with (-180) in Hlo
    by (unfold degrees; field; apply PI_neq0).
  replace (degrees PI) with 180 in Hhi
    by (unfold degrees; field; apply PI_neq0).
  done.
Qed.

Lemma degrees_atan2_range y x : in_half_turn (degrees (JSMath.atan2 y x)).
Proof. apply degrees_range. pose proof (atan2_range y x). lra. Qed.

Lemma degrees_opp_atan2_range y x :
  in_half_turn (degrees (- JSMath.atan2 y x)).
Proof. apply degrees_range. pose proof (atan2_range y x). lra. Qed.

Lemma degrees_asin_range v : in_half_turn (degrees (asin v)).
Proof.
  apply degrees_range. pose proof (asin_bound v). pose proof PI_RGT_0. lra.
Qed.

Lemma degrees_acos_range v : in_half_turn (degrees (acos v)).
Proof.
  apply degrees_range. pose proof (acos_bound v). pose proof PI_RGT_0. lra.
Qed.

Lemma degrees_0_range : in_half_turn (degrees 0).
Proof. rewrite degrees_0. unfold in_half_turn. lra. Qed.

Lemma degrees_PI_range : in_half_turn (degrees PI).
Proof. apply degrees_range. pose proof PI_RGT_0. lra. Qed.

Lemma setRotation_default m x y z (order : option EulerOrder) :
  Matrix.setRotation m x y z (Some (default "XYZ"%string order))
  = Matrix.setRotation m x y z order.
Proof. by destruct order. Qed.

Lemma run_bind_thrown {A B} (c : JS A) (k : A → JS B) h e h' :
  c h = Some (Throw e, h') → (c ≫= k) h = Some (Throw e, h').
Proof. intros E. unfold mbind, JS_bind. by rewrite E. Qed.

Section euler.
Context {B : Type}.
Implicit Types (h : heap) (m a : loc) (es : list R).

Lemma run_setRotation_identity (k : loc → JS B) h m a x y z order :
  is_matrix h m a identity_elements →
  default "XYZ"%string order ∈ supported_orders →
  ∃ es',
    length es' = 16%nat ∧ rotation_block es' ∧ affine es' ∧
    (Matrix.setRotation m x y z order ≫= k) h
    = k m (<[a := ArrayObj (Some <$> es')]> h).
Proof.
  intros (Hm & Ha & _) Horder. simpl in Ha.
  pose proof (round_sin_not_PI (radians y)).
  unfold Matrix.setRotation. cbv zeta.
  unfold supported_orders in Horder.
  repeat (apply elem_of_cons in Horder as [->|Horder]);
    [..|by apply elem_of_nil in Horder].
  all: js_run.
  all: eexists [_;_;_;_;_;_;_;_;_;_;_;_;_;_;_;_].
  all: split; [reflexivity|]; split; [|split; [|reflexivity]].
  all: try (unfold affine, entry; simpl; done).
  all: unfold rotation_block, dot, det3, entry; simpl.
  all: pythagoras (radians x); pythagoras (radians y); pythagoras (radians z).
  all: repeat split; nsatz.
Qed.
End euler.

Lemma euler_matrix_run (h : heap) (x y z : R) (order : option EulerOrder) :
  default "XYZ"%string order ∈ supported_orders →
  ∃ m0 a0 ee h0,
    (e ← Matrix.new; Matrix.setRotation e x y z order) h
    = Some (Normal m0, h0) ∧
    h !! m0 = None ∧ h !! a0 = None ∧ h ⊆ h0 ∧
    is_matrix h0 m0 a0 ee ∧ rotation_block ee ∧ affine ee.
Proof.
  intros Horder. rewrite run_last, run_bind_assoc.
  match goal with |- context [ (Matrix.new ≫= ?k') ?hh ] =>
    destruct (run_new k' hh) as (a0 & m0 & Ha0 & Hm0 & Hne & ->)
  end.
  match goal with
  | |- context [ (Matrix.setRotation m0 x y z order ≫= ?k') ?hh ] =>
      destruct (run_setRotation_identity k' hh m0 a0 x y z order)
        as (ee & Hlen & Hrot & Haff & ->); [repeat split; heap_lookup|done|]
  end.
  rewrite run_ret. eexists m0, a0, ee, _. split; [reflexivity|].
  do 2 (split; [done|]). split; [heap_kept|].
  split; [repeat split; [heap_lookup..|done]|done].
Qed.

Lemma rotated_after_setRotation m x y z (order : option EulerOrder) h :
  Matrix.rotated m x y z order h
  = ((fresh ← Matrix.new; Matrix.setRotation fresh x y z order)
     ≫= λ rot,
       q ← Matrix.toQuaternion rot;
       qx ← array_get q 0; qy ← array_get q 1;
       qz ← array_get q 2; qw ← array_get q 3;
       copy ← Matrix.clone m;
       Matrix.applyQuaternion copy qx qy qz qw) h.
Proof.
  rewrite run_bind_assoc. unfold Matrix.rotated. cbv zeta.
  unfold mbind at 1 9, JS_bind.
  destruct (Matrix.new h) as [[[fresh|] h1]|]; [|done..].
  by rewrite setRotation_default.
Qed.

(** X16. With a supported order, [setRotation] returns the receiver and
    writes nothing outside the nine entries of the 3x3 block: the
    translation (12, 13, 14), the bottom row (3, 7, 11) and element 15 are
    as before, and so is every other object of the heap. *)
Theorem setRotation_frame (h : heap) (m a : loc) (es : list R) (x y z : R)
    (order : option EulerOrder) :
  is_matrix h m a es → default "XYZ"%string order ∈ supported_orders →
  ∃ es' h',
    Matrix.setRotation m x y z order h = Some (Normal m, h') ∧
    is_matrix h' m a es' ∧
    (∀ i, i ∉ block_indices → es' !! i = es !! i) ∧
    keeps_heap_except a h h'.
Proof.
  intros H Horder. pose proof H as (Hm' & Ha' & _).
  assert (m ≠ a) by congruence. matrix_elements H.
  pose proof (round_sin_not_PI (radians y)).
  rewrite run_last. unfold Matrix.setRotation. cbv zeta.
  unfold supported_orders in Horder.
  repeat (apply elem_of_cons in Horder as [->|Horder]);
    [..|by apply elem_of_nil in Horder].
  all: js_run; rewrite run_ret.
  all: eexists [_;_;_;_;_;_;_;_;_;_;_;_;_;_;_;_], _.
  all: split; [reflexivity|].
  all: split; [repeat split; heap_lookup|].
  all: split; [|intros l' ?; by rewrite lookup_insert_ne].
  all: intros i Hi.
  all: do 16 (destruct i as [|i];
              [try done; exfalso; apply Hi; apply (bool_decide_unpack _);
               by vm_compute|]).
  all: done.
Qed.

Lemma setRotation_frame_witness :
  ∃ es' h',
    Matrix.setRotation 1 30 40 50 (Some "ZYX"%string) sample_heap
    = Some (Normal 1%nat, h') ∧
    is_matrix h' 1 0 es' ∧
    (∀ i, i ∉ block_indices → es' !! i = sample_elements !! i) ∧
    keeps_heap_except 0 sample_heap h'.
Proof.
  exact (setRotation_frame sample_heap 1 0 sample_elements 30 40 50
           (Some "ZYX"%string) sample_is_matrix ZYX_supported).
Defined.

(** X17. For each of the seven supported orders (XZY included) and all
    angles, [setRotation] on a fresh identity gives a matrix whose 3x3
    block is a rotation (orthonormal columns, determinant 1) and whose
    bottom row is (0, 0, 0, 1). *)
Theorem setRotation_builds_rotation (h : heap) (x y z : R)
    (order : option EulerOrder) :
  default "XYZ"%string order ∈ supported_orders →
  ∃ m a es h',
    (fresh ← Matrix.new; Matrix.setRotation fresh x y z order) h
    = Some (Normal m, h') ∧
    h !! m = None ∧ is_matrix h' m a es ∧ rotation_block es ∧ affine es.
Proof.
  intros Horder.
  destruct (euler_matrix_run h x y z order Horder)
    as (m & a & es & h' & ? & ? & _ & _ & ? & ? & ?).
  by exists m, a, es, h'.
Qed.

Lemma setRotation_builds_rotation_witness :
  ∃ m a es h',
    (fresh ← Matrix.new;
     Matrix.setRotation fresh 30 40 50 (Some "ZYX"%string)) ∅
    = Some (Normal m, h') ∧
    (∅ : heap) !! m = None ∧ is_matrix h' m a es ∧ rotation_block es ∧
    affine es.
Proof.
  exact (setRotation_builds_rotation ∅ 30 40 50 (Some "ZYX"%string)
           ZYX_supported).
Defined.

(** X18. With order ZYZ and y = 0 the first degenerate branch of
    [setRotation] is taken: only the elements 0, 1, 4 and 5 are written,
    with a rotation about Z by x + z; the elements 2, 6, 8, 9 and 10 keep
    whatever they held. *)
Theorem setRotation_ZYZ_zero (h : heap) (m a : loc) (es : list R) (x z : R) :
  is_matrix h m a es →
  Matrix.setRotation m x 0 z (Some "ZYZ"%string) h
  = Some (Normal m,
          <[a := ArrayObj (Some <$> z_rotation_over es (x + z))]> h).
Proof.
  intros H. matrix_elements H.
  rewrite run_last. unfold Matrix.setRotation. simpl default. cbv zeta.
  rewrite sin_radians_0.
  js_run. rewrite run_ret. unfold z_rotation_over. simpl.
  rewrite radians_plus, cos_plus, sin_plus.
  do 4 f_equal.
  repeat (apply (f_equal2 cons); [f_equal; ring|]). done.
Qed.

Lemma setRotation_ZYZ_zero_witness :
  Matrix.setRotation 1 30 0 50 (Some "ZYZ"%string) sample_heap
  = Some (Normal 1%nat,
          <[0%nat := ArrayObj
                       (Some <$> z_rotation_over sample_elements (30 + 50))]>
            sample_heap).
Proof.
  exact (setRotation_ZYZ_zero sample_heap 1 0 sample_elements 30 50
           sample_is_matrix).
Defined.

(** X19. With order ZYZ and y = 0, [setRotation] on a fresh identity
    followed by [toEuler] returns (x + z, 0, 0) when x + z is between
    -179.9999 and 179.9999: the two rotations about Z are merged into the
    first angle. *)
Theorem round_trip_ZYZ_zero (h : heap) (x z : R) :
  clear_of_cut (x + z) →
  returns_angles (round_trip "ZYZ" x 0 z) h (x + z) 0 0.
Proof.
  intros Hp%clear_of_cut_principal. unfold returns_angles, round_trip. rewrite run_last.
  unfold Matrix.toEuler, Matrix.setRotation, Matrix.new. simpl default.
  cbv zeta. rewrite sin_radians_0.
  js_run; rewrite ?run_ret; try (exfalso; lra).
  eexists _, _, _, _, _. split; [reflexivity|]. rewrite lookup_insert_eq.
  split; [reflexivity|].
  rewrite degrees_0.
  replace (degrees (JSMath.atan2 _ _)) with (x + z).
  { repeat split; apply within_tolerance. }
  symmetry. apply (degrees_atan2 1); [lra|done|..];
    rewrite radians_plus, ?sin_plus, ?cos_plus; ring.
Qed.

Lemma round_trip_ZYZ_zero_witness :
  returns_angles (round_trip "ZYZ" 30 0 50) ∅ (30 + 50) 0 0.
Proof.
  apply (round_trip_ZYZ_zero ∅ 30 50). unfold clear_of_cut. lra.
Defined.

Ltac gimbal_run :=
  unfold returns_angles, round_trip; rewrite run_last;
  unfold Matrix.toEuler, Matrix.setRotation, Matrix.new; simpl default;
  cbv zeta; rewrite ?sin_radians_90, ?cos_radians_90;
  js_run; rewrite ?run_ret.

Ltac gimbal_angle :=
  match goal with
  | |- Rabs (degrees 0 - 0) < _ => rewrite degrees_0; apply within_tolerance
  | |- Rabs (degrees (asin ?v) - 90) < _ =>
      rewrite (degrees_asin_1 v) by (rewrite clamp_id; lra);
      apply within_tolerance
  | |- Rabs (degrees (JSMath.atan2 ?y ?x) - ?deg) < _ =>
      replace (degrees (JSMath.atan2 y x)) with deg;
      [apply within_tolerance|];
      symmetry; apply (degrees_atan2 1); [lra|assumption|..];
      rewrite ?radians_plus, ?radians_opp, ?sin_plus, ?cos_plus,
        ?sin_neg, ?cos_neg;
      ring
  end.

(** X20. At the gimbal lock, where the angle that [toEuler] extracts with
    asin is 90 degrees, [setRotation] on a fresh identity followed by
    [toEuler] returns that angle as 90, one of the two other angles as 0,
    and in the remaining one a combination of the two angles given (their
    sum, with the sign conventions of each order), when that combination
    is between -179.9999 and 179.9999. *)
Theorem gimbal_lock_extraction (h : heap) (a b : R) :
  clear_of_cut (a + b) →
  returns_angles (round_trip "XYZ" a 90 b) h (a + b) 90 0 ∧
  returns_angles (round_trip "YXZ" 90 a (- b)) h 90 (a + b) 0 ∧
  returns_angles (round_trip "ZXY" 90 a b) h 90 0 (a + b) ∧
  returns_angles (round_trip "ZYX" (- a) 90 b) h 0 90 (a + b) ∧
  returns_angles (round_trip "YZX" a b 90) h 0 (a + b) 90.
Proof.
  intros Hp%clear_of_cut_principal. repeat split.
  all: gimbal_run.
  all: try (exfalso;
            match goal with
            | H : JSMath.abs ?v < _ |- _ =>
                apply (at_gimbal v); [lra|exact H]
            end).
  all: eexists _, _, _, _, _; (split; [reflexivity|]);
         rewrite lookup_insert_eq; (split; [reflexivity|]).
  all: repeat split; gimbal_angle.
Qed.

Lemma gimbal_lock_extraction_witness :
  returns_angles (round_trip "XYZ" 30 90 50) ∅ (30 + 50) 90 0 ∧
  returns_angles (round_trip "YXZ" 90 30 (- 50)) ∅ 90 (30 + 50) 0 ∧
  returns_angles (round_trip "ZXY" 90 30 50) ∅ 90 0 (30 + 50) ∧
  returns_angles (round_trip "ZYX" (- 30) 90 50) ∅ 0 90 (30 + 50) ∧
  returns_angles (round_trip "YZX" 30 50 90) ∅ 0 (30 + 50) 90.
Proof.
  apply (gimbal_lock_extraction ∅ 30 50). unfold clear_of_cut. lra.
Defined.

(** X21. With a supported order, [toEuler] on any matrix of sixteen numbers
    returns a new array of three angles, each between -180 and 180
    degrees, and changes no object of the heap. *)
Theorem toEuler_range (h : heap) (m a : loc) (es : list R)
    (order : option EulerOrder) :
  is_matrix h m a es → default "XYZ"%string order ∈ supported_orders →
  ∃ r x y z h',
    Matrix.toEuler m order h = Some (Normal r, h') ∧
    h !! r = None ∧ h ⊆ h' ∧
    h' !! r = Some (ArrayObj (Some <$> [x; y; z])) ∧
    in_half_turn x ∧ in_half_turn y ∧ in_half_turn z.
Proof.
  intros H Horder. matrix_elements H. rewrite run_last.
  unfold Matrix.toEuler. unfold supported_orders in Horder.
  repeat (apply elem_of_cons in Horder as [->|Horder]);
    [..|by apply elem_of_nil in Horder].
  all: js_run; rewrite run_ret.
  all: eexists _, _, _, _, _; (split; [reflexivity|]); (split; [done|]).
  all: (split; [heap_kept|]); rewrite lookup_insert_eq.
  all: (split; [reflexivity|]).
  all: repeat split;
         first [ apply degrees_atan2_range | apply degrees_opp_atan2_range
               | apply degrees_asin_range | apply degrees_acos_range
               | apply degrees_0_range | apply degrees_PI_range ].
Qed.

Lemma toEuler_range_witness :
  ∃ r x y z h',
    Matrix.toEuler 1 (Some "ZYX"%string) sample_heap
    = Some (Normal r, h') ∧
    sample_heap !! r = None ∧ sample_heap ⊆ h' ∧
    h' !! r = Some (ArrayObj (Some <$> [x; y; z])) ∧
    in_half_turn x ∧ in_half_turn y ∧ in_half_turn z.
Proof.
  exact (toEuler_range sample_heap 1 0 sample_elements (Some "ZYX"%string)
           sample_is_matrix ZYX_supported).
Defined.

(** X22. On a matrix whose 3x3 block is a rotation and with a supported
    order, [rotated] returns a new instance on a new array and leaves the
    receiver as it was; the 3x3 block of the result is that of the matrix
    product of the receiver (on the left) with the fresh matrix that
    [setRotation] builds from the angles, and its seven other elements are
    those of the identity (the translation of the receiver is dropped). *)
Theorem rotated_multiplies (h : heap) (m a : loc) (es : list R) (x y z : R)
    (order : option EulerOrder) :
  is_matrix h m a es → rotation_block es →
  default "XYZ"%string order ∈ supported_orders →
  ∃ es1 es2,
    same_block es1 es2 ∧
    (∀ i, i ∉ block_indices → es1 !! i = identity_elements !! i) ∧
    (∃ r ar h',
       Matrix.rotated m x y z order h = Some (Normal r, h') ∧
       h !! r = None ∧ h !! ar = None ∧
       is_matrix h' r ar es1 ∧ is_matrix h' m a es) ∧
    (∃ r ar h',
       (fresh ← Matrix.new;
        other ← Matrix.setRotation fresh x y z order;
        Matrix.multiplied m other) h = Some (Normal r, h') ∧
       is_matrix h' r ar es2).
Proof.
  intros H Hrot Horder.
  destruct (euler_matrix_run h x y z order Horder)
    as (m0 & a0 & ee & h0 & Hrun0 & Hm0 & Ha0 & Hsub0 & He & Hrote & Haffe).
  pose proof He as (_ & _ & Hlene).
  assert (is_matrix h0 m a es) as H0 by by eapply is_matrix_kept.
  (* the run of [rotated] after the matrix of the angles is built *)
  assert (∃ r ar es1 h',
            Matrix.rotated m x y z order h = Some (Normal r, h') ∧
            h0 !! r = None ∧ h0 !! ar = None ∧ h0 ⊆ h' ∧
            is_matrix h' r ar es1 ∧
            same_block es1 (matrix_product es ee) ∧
            (∀ i, i ∉ block_indices → es1 !! i = identity_elements !! i))
    as (r1 & ar1 & es1 & h1 & Hrun1 & Hr1 & Har1 & Hsub1 & Hm1 & Hb1 & Hrest).
  { rewrite rotated_after_setRotation, (run_bind _ _ _ _ _ Hrun0).
    rewrite run_last, run_bind_assoc.
    match goal with |- context [ (Matrix.toQuaternion m0 ≫= ?k') ?hh ] =>
      destruct (run_toQuaternion_rotation k' hh m0 a0 ee He Hrote)
        as (q & qx & qy & qz & qw & Hu & Hbq & Hq & ->)
    end.
    js_run. rewrite ?run_bind_assoc.
    match goal with |- context [ (Matrix.clone m ≫= ?k') ?hh ] =>
      destruct (run_clone k' hh m a es)
        as (c & ac & hc & -> & Hc & Hac & Hsubc & Hmc);
        [by apply is_matrix_insert_fresh|]
    end.
    match goal with
    | |- context [ (Matrix.applyQuaternion c ?x' ?y' ?z' ?w' ≫= ?k') ?hh ] =>
        destruct (run_applyQuaternion_rotation k' hh c ac es ee x' y' z' w')
          as (r & ar & es1 & h' & -> & Hr & Har & Hsub & Hm1 & Hb1 & Hrest);
          [done..|]
    end.
    rewrite run_ret. exists r, ar, es1, h'. split; [done|].
    assert (h0 ⊆ hc).
    { etrans; [|exact Hsubc]. by apply insert_subseteq. }
    assert (∀ l, hc !! l = None → h0 !! l = None) as Hnone.
    { intros l' E. destruct (h0 !! l') eqn:E'; [|done].
      eapply lookup_weaken in E'; [|done]. congruence. }
    split; [by apply Hnone|]. split; [by apply Hnone|].
    split; [by etrans|]. done. }
  assert (∀ l, h0 !! l = None → h !! l = None) as Hnone.
  { intros l' E. destruct (h !! l') eqn:E'; [|done].
    eapply lookup_weaken in E'; [|done]. congruence. }
  destruct (run_multiplied mret h0 m m0 a a0 es ee H0 He)
    as (r2 & ar2 & h2 & Hrun2 & _ & _ & _ & Hm2).
  exists es1, (matrix_product es ee). do 2 (split; [done|]). split.
  - exists r1, ar1, h1. split; [done|].
    split; [by apply Hnone|]. split; [by apply Hnone|]. split; [done|].
    eapply is_matrix_kept; [exact H0|done].
  - exists r2, ar2, h2. split; [|done].
    rewrite <- (run_bind_assoc Matrix.new
                  (λ fresh, Matrix.setRotation fresh x y z order)).
    rewrite (run_bind _ _ _ _ _ Hrun0).
    by rewrite run_last, Hrun2, run_ret.
Qed.

Lemma rotated_multiplies_witness :
  ∃ es1 es2,
    same_block es1 es2 ∧
    (∀ i, i ∉ block_indices → es1 !! i = identity_elements !! i) ∧
    (∃ r ar h',
       Matrix.rotated 1 30 40 50 (Some "ZYX"%string) quarter_turn_heap
       = Some (Normal r, h') ∧
       quarter_turn_heap !! r = None ∧ quarter_turn_heap !! ar = None ∧
       is_matrix h' r ar es1 ∧ is_matrix h' 1 0 quarter_turn_elements) ∧
    (∃ r ar h',
       (fresh ← Matrix.new;
        other ← Matrix.setRotation fresh 30 40 50 (Some "ZYX"%string);
        Matrix.multiplied 1 other) quarter_turn_heap
       = Some (Normal r, h') ∧
       is_matrix h' r ar es2).
Proof.
  exact (rotated_multiplies quarter_turn_heap 1 0 quarter_turn_elements
           30 40 50 (Some "ZYX"%string) quarter_turn_is_matrix
           quarter_turn_rotation ZYX_supported).
Defined.

(** X23. With an order outside the seven supported ones, [rotate] and
    [rotated] fail with the error of [setRotation], "Unrecognized order "
    followed by the order, and leave the receiver and every object of the
    heap as they were. *)
Theorem rotate_rotated_invalid_order (h : heap) (m a : loc) (es : list R)
    (x y z : R) (order : EulerOrder) :
  is_matrix h m a es → order ∉ supported_orders →
  (∃ h', Matrix.rotate m x y z (Some order) h
         = Some (Throw ("Unrecognized order " +:+ order), h') ∧
         h ⊆ h' ∧ is_matrix h' m a es) ∧
  (∃ h', Matrix.rotated m x y z (Some order) h
         = Some (Throw ("Unrecognized order " +:+ order), h') ∧
         h ⊆ h' ∧ is_matrix h' m a es).
Proof.
  intros H Hbad.
  split; unfold Matrix.rotate, Matrix.rotated; cbv zeta; simpl default;
    (match goal with |- context [ (Matrix.new ≫= ?k') ?hh ] =>
       destruct (run_new k' hh) as (a0 & m0 & Ha0 & Hm0 & Hne & ->)
     end);
    (erewrite run_bind_thrown by by apply run_setRotation_unsupported);
    (eexists; split; [reflexivity|]);
    (assert (h ⊆ <[m0:=MatrixObj a0]>
       (<[a0:=ArrayObj
                (Some <$> [1; 0; 0; 0; 0; 1; 0; 0; 0; 0; 1; 0; 0; 0; 0; 1])]>
          h)) by heap_kept);
    (split; [done|by eapply is_matrix_kept]).
Qed.

Lemma rotate_rotated_invalid_order_witness :
  (∃ h', Matrix.rotate 1 30 40 50 (Some "BAD"%string) sample_heap
         = Some (Throw ("Unrecognized order " +:+ "BAD"), h') ∧
         sample_heap ⊆ h' ∧ is_matrix h' 1 0 sample_elements) ∧
  (∃ h', Matrix.rotated 1 30 40 50 (Some "BAD"%string) sample_heap
         = Some (Throw ("Unrecognized order " +:+ "BAD"), h') ∧
         sample_heap ⊆ h' ∧ is_matrix h' 1 0 sample_elements).
Proof.
  exact (rotate_rotated_invalid_order sample_heap 1 0 sample_elements
           30 40 50 "BAD"%string sample_is_matrix BAD_unsupported).
Defined.
